(** * ringbuf: the in-memory ring buffer stream filter

    A shallow embedding of [ringbuf.c] (src/unnamed/part_000): the shared
    [stream_sys_t] record, the four locked ring primitives
    ([WaitBufferForRead_l], [PeekFromBuffer_l], [ReadFromBuffer_l],
    [WaitBufferForWrite_l], [WriteToBuffer_l]), the producer loop
    [BufferThread] and the consumer entry points [Read], [Peek], [Control],
    [Close].

    Conventions of the embedding.
    - C [int] values are integers of [Z]; [/] and [%] on [int] are [Z.quot]
      and [Z.rem] (truncation towards zero).  [uint64_t] values are kept in
      [[0, 2^64)] by [u64], written at every place where the C code computes
      in [uint64_t].
    - The state mutex is never held across two steps of the transition
      system: a step is a maximal piece of code between two points where a
      thread can block ([vlc_cond_timedwait]) or where it leaves a critical
      section.  A thread that sits in [vlc_cond_timedwait] is woken by a
      broadcast or by the [COND_POLL_TIME] timeout; in both cases it
      re-evaluates its loop condition, which is what one step of a waiting
      thread does.
    - The bytes stored in the ring are not part of the state; every
      [memcpy] is recorded as an event that names the block, the offset in
      the block, the offset in the caller's buffer and the length.
    - Calls to the source stream are events too; the value the source
      returns is an input of the step that performs the call. *)

From Stdlib Require Import ZArith List Bool Lia.
Import ListNotations.
Local Open Scope Z_scope.

(** ** Constants ([#define]s of ringbuf.c) *)

Definition RING_BLOCK_SIZE : Z := 1 * 1024 * 1024.
Definition RING_BLOCK_COUNT : Z := 10.
Definition RING_TOTAL_CAPACITY : Z := RING_BLOCK_SIZE * RING_BLOCK_COUNT.
Definition RING_BUFF_RW_GUARD_GAP : Z := 1024.
Definition RING_BUFF_SEEK_GUARD_GAP : Z := 1 * 1024 * 1024.
Definition RING_SEEK_THRESHOLD : Z := 1 * 1024 * 1024.
Definition BYTES_PER_READ : Z := 32 * 1024.

Lemma RING_BLOCK_SIZE_val : RING_BLOCK_SIZE = 1048576.
Proof. reflexivity. Qed.
Lemma RING_TOTAL_CAPACITY_val : RING_TOTAL_CAPACITY = 10485760.
Proof. reflexivity. Qed.
Lemma RING_BUFF_RW_GUARD_GAP_val : RING_BUFF_RW_GUARD_GAP = 1024.
Proof. reflexivity. Qed.
Lemma RING_BUFF_SEEK_GUARD_GAP_val : RING_BUFF_SEEK_GUARD_GAP = 1048576.
Proof. reflexivity. Qed.
Lemma RING_SEEK_THRESHOLD_val : RING_SEEK_THRESHOLD = 1048576.
Proof. reflexivity. Qed.
Lemma BYTES_PER_READ_val : BYTES_PER_READ = 32768.
Proof. reflexivity. Qed.

(** Replaces the named constants by their values, for [lia]. *)
Ltac consts :=
  rewrite ?RING_TOTAL_CAPACITY_val, ?RING_BLOCK_SIZE_val,
    ?RING_BUFF_RW_GUARD_GAP_val, ?RING_BUFF_SEEK_GUARD_GAP_val,
    ?RING_SEEK_THRESHOLD_val, ?BYTES_PER_READ_val in *.

(** The assertion at the head of [Open]. *)
Lemma guard_gaps_fit :
  RING_BUFF_RW_GUARD_GAP + RING_BUFF_SEEK_GUARD_GAP < RING_TOTAL_CAPACITY.
Proof. consts. lia. Qed.

(** ** Machine integers *)

(** Arithmetic in [uint64_t]. *)
Definition u64 (x : Z) : Z := x mod 2 ^ 64.

(** Conversion of an [unsigned int] argument to the [int] parameter of the
    [_l] functions. *)
Definition int_of_uint (x : Z) : Z := if x <? 2 ^ 31 then x else x - 2 ^ 32.

(** ** The shared state *)

Record stream_sys_t := mk_sys {
  i_stream_size : Z;
  b_can_fastseek : bool;
  b_can_seek : bool;
  b_error : bool;
  b_abort : bool;
  (* cached index/size, data not been overwritten *)
  i_cache_index : Z;
  i_cache_size : Z;
  i_cache_offset : Z;
  (* buffered index/size, data not been read *)
  i_buffer_size : Z;
  i_read_index : Z;
  i_write_index : Z;
  i_seek_pos : Z;
  b_seek_request : bool;
  i_stream_offset : Z;
  b_buffered_eos : bool;
  (* temporary buffer for Peek(): [None] is the null pointer, [Some n] a
     block of [n] bytes *)
  p_temp_peek : option Z;
  i_temp_peek_capacity : Z
}.

Definition set_b_error (v : bool) (s : stream_sys_t) : stream_sys_t :=
  mk_sys (i_stream_size s) (b_can_fastseek s) (b_can_seek s) v (b_abort s)
    (i_cache_index s) (i_cache_size s) (i_cache_offset s) (i_buffer_size s)
    (i_read_index s) (i_write_index s) (i_seek_pos s) (b_seek_request s)
    (i_stream_offset s) (b_buffered_eos s) (p_temp_peek s)
    (i_temp_peek_capacity s).

Definition set_b_abort (v : bool) (s : stream_sys_t) : stream_sys_t :=
  mk_sys (i_stream_size s) (b_can_fastseek s) (b_can_seek s) (b_error s) v
    (i_cache_index s) (i_cache_size s) (i_cache_offset s) (i_buffer_size s)
    (i_read_index s) (i_write_index s) (i_seek_pos s) (b_seek_request s)
    (i_stream_offset s) (b_buffered_eos s) (p_temp_peek s)
    (i_temp_peek_capacity s).

Definition set_cache (index size offset : Z) (s : stream_sys_t) : stream_sys_t :=
  mk_sys (i_stream_size s) (b_can_fastseek s) (b_can_seek s) (b_error s)
    (b_abort s) index size offset (i_buffer_size s)
    (i_read_index s) (i_write_index s) (i_seek_pos s) (b_seek_request s)
    (i_stream_offset s) (b_buffered_eos s) (p_temp_peek s)
    (i_temp_peek_capacity s).

Definition set_i_buffer_size (v : Z) (s : stream_sys_t) : stream_sys_t :=
  mk_sys (i_stream_size s) (b_can_fastseek s) (b_can_seek s) (b_error s)
    (b_abort s) (i_cache_index s) (i_cache_size s) (i_cache_offset s) v
    (i_read_index s) (i_write_index s) (i_seek_pos s) (b_seek_request s)
    (i_stream_offset s) (b_buffered_eos s) (p_temp_peek s)
    (i_temp_peek_capacity s).

Definition set_i_read_index (v : Z) (s : stream_sys_t) : stream_sys_t :=
  mk_sys (i_stream_size s) (b_can_fastseek s) (b_can_seek s) (b_error s)
    (b_abort s) (i_cache_index s) (i_cache_size s) (i_cache_offset s)
    (i_buffer_size s) v (i_write_index s) (i_seek_pos s) (b_seek_request s)
    (i_stream_offset s) (b_buffered_eos s) (p_temp_peek s)
    (i_temp_peek_capacity s).

Definition set_i_write_index (v : Z) (s : stream_sys_t) : stream_sys_t :=
  mk_sys (i_stream_size s) (b_can_fastseek s) (b_can_seek s) (b_error s)
    (b_abort s) (i_cache_index s) (i_cache_size s) (i_cache_offset s)
    (i_buffer_size s) (i_read_index s) v (i_seek_pos s) (b_seek_request s)
    (i_stream_offset s) (b_buffered_eos s) (p_temp_peek s)
    (i_temp_peek_capacity s).

Definition set_seek (pos : Z) (request : bool) (s : stream_sys_t) : stream_sys_t :=
  mk_sys (i_stream_size s) (b_can_fastseek s) (b_can_seek s) (b_error s)
    (b_abort s) (i_cache_index s) (i_cache_size s) (i_cache_offset s)
    (i_buffer_size s) (i_read_index s) (i_write_index s) pos request
    (i_stream_offset s) (b_buffered_eos s) (p_temp_peek s)
    (i_temp_peek_capacity s).

Definition set_i_stream_offset (v : Z) (s : stream_sys_t) : stream_sys_t :=
  mk_sys (i_stream_size s) (b_can_fastseek s) (b_can_seek s) (b_error s)
    (b_abort s) (i_cache_index s) (i_cache_size s) (i_cache_offset s)
    (i_buffer_size s) (i_read_index s) (i_write_index s) (i_seek_pos s)
    (b_seek_request s) v (b_buffered_eos s) (p_temp_peek s)
    (i_temp_peek_capacity s).

Definition set_b_buffered_eos (v : bool) (s : stream_sys_t) : stream_sys_t :=
  mk_sys (i_stream_size s) (b_can_fastseek s) (b_can_seek s) (b_error s)
    (b_abort s) (i_cache_index s) (i_cache_size s) (i_cache_offset s)
    (i_buffer_size s) (i_read_index s) (i_write_index s) (i_seek_pos s)
    (b_seek_request s) (i_stream_offset s) v (p_temp_peek s)
    (i_temp_peek_capacity s).

Definition set_temp_peek (p : option Z) (capacity : Z) (s : stream_sys_t)
  : stream_sys_t :=
  mk_sys (i_stream_size s) (b_can_fastseek s) (b_can_seek s) (b_error s)
    (b_abort s) (i_cache_index s) (i_cache_size s) (i_cache_offset s)
    (i_buffer_size s) (i_read_index s) (i_write_index s) (i_seek_pos s)
    (b_seek_request s) (i_stream_offset s) (b_buffered_eos s) p capacity.

(** ** Events *)

Inductive cond := wakeup_read_cond | wakeup_write_cond.

(** What a consumer entry point hands back to its caller. *)
Inductive api_ret :=
| Ret_int (v : Z)
| Ret_bool (b : bool)
| Ret_u64 (v : Z)
| VLC_SUCCESS
| VLC_EGENERIC
| VLC_ENOMEM.

Inductive event :=
| Broadcast (c : cond)
| TimedWait (c : cond)
| SourceTell (ret : Z)
| SourceRead (n ret : Z)
| SourceSeek (pos ret : Z)
| MemcpyFromRing (block offset dst_offset len : Z)
| MemcpyToRing (block offset src_offset len : Z)
| Realloc (size : Z) (ok : bool)
| FreeTempPeek
| ReadReturns (r : Z)
| PeekReturns (r : api_ret)
| ControlReturns (status : api_ret) (out : option api_ret).

(** A wait loop either leaves with a value or goes to sleep on its
    condition variable. *)
Inductive outcome :=
| Ready (v : Z)
| Wait.

(** ** Ring primitives *)

(** The loop of [WaitBufferForRead_l], evaluated once. *)
Definition WaitBufferForRead_l (s : stream_sys_t) (i_read : Z)
  : outcome * list event :=
  if i_read <=? 0 then (Ready i_read, [])
  else if b_seek_request s || (i_buffer_size s <? i_read) then
    if b_abort s then (Ready (-1), [])
    else if b_error s then (Ready (-1), [])
    else if b_buffered_eos s then (Ready (i_buffer_size s), [])
    else (Wait,
          (if negb (b_seek_request s) then [Broadcast wakeup_write_cond] else [])
            ++ [TimedWait wakeup_read_cond])
  else (Ready i_read, []).

(** The block-wise copy loop shared by [PeekFromBuffer_l] and
    [WriteToBuffer_l]: walks [i_total] bytes of the ring from [i_index] and
    returns [i_data_filled] with the pieces copied, each as (block, offset in
    block, offset in the caller's buffer, length). *)
Fixpoint copy_loop (fuel : nat) (i_total i_index i_data_filled : Z)
  : Z * list (Z * Z * Z * Z) :=
  match fuel with
  | O => (i_data_filled, [])
  | S fuel' =>
      if i_data_filled <? i_total then
        let i_block_id := Z.quot i_index RING_BLOCK_SIZE in
        let i_offset_in_block := Z.rem i_index RING_BLOCK_SIZE in
        let i_max_in_block := RING_BLOCK_SIZE - i_offset_in_block in
        let i_copy :=
          if i_max_in_block <? i_total - i_data_filled
          then i_max_in_block else i_total - i_data_filled in
        let '(r, l) :=
          copy_loop fuel' i_total
            (Z.rem (i_index + i_copy) RING_TOTAL_CAPACITY)
            (i_data_filled + i_copy) in
        (r, (i_block_id, i_offset_in_block, i_data_filled, i_copy) :: l)
      else (i_data_filled, [])
  end.

Definition memcpy_from_ring (has_dst : bool) (l : list (Z * Z * Z * Z))
  : list event :=
  if has_dst
  then map (fun '(b, o, d, n) => MemcpyFromRing b o d n) l
  else [].

Definition memcpy_to_ring (l : list (Z * Z * Z * Z)) : list event :=
  map (fun '(b, o, d, n) => MemcpyToRing b o d n) l.

Definition PeekFromBuffer_l (s : stream_sys_t) (has_dst : bool) (i_read : Z)
  : outcome * list event :=
  match WaitBufferForRead_l s i_read with
  | (Wait, ev) => (Wait, ev)
  | (Ready i_data_ready, ev) =>
      if i_data_ready <? 0 then (Ready i_data_ready, ev)
      else if i_buffer_size s <=? 0 then (Ready i_data_ready, ev)
      else
        let i_to_read :=
          if i_buffer_size s <? i_data_ready
          then i_buffer_size s else i_data_ready in
        let '(i_data_filled, l) :=
          copy_loop (Z.to_nat i_to_read) i_to_read (i_read_index s) 0 in
        (Ready i_data_filled, ev ++ memcpy_from_ring has_dst l)
  end.

Definition ReadFromBuffer_l (s : stream_sys_t) (has_dst : bool) (i_read : Z)
  : outcome * stream_sys_t * list event :=
  match PeekFromBuffer_l s has_dst i_read with
  | (Wait, ev) => (Wait, s, ev)
  | (Ready i_data_peeked, ev) =>
      if i_data_peeked <? 0 then (Ready i_data_peeked, s, ev)
      else
        let s1 := set_i_buffer_size (i_buffer_size s - i_data_peeked) s in
        let s2 :=
          set_i_read_index
            (Z.rem (i_read_index s1 + i_data_peeked) RING_TOTAL_CAPACITY) s1 in
        let s3 :=
          set_i_stream_offset (u64 (i_stream_offset s2 + i_data_peeked)) s2 in
        (Ready i_data_peeked, s3, ev ++ [Broadcast wakeup_write_cond])
  end.

(** The loop of [WaitBufferForWrite_l], evaluated once. *)
Definition WaitBufferForWrite_l (s : stream_sys_t) (i_write : Z)
  : outcome * list event :=
  if i_write <=? 0 then (Ready i_write, [])
  else if RING_TOTAL_CAPACITY - RING_BUFF_RW_GUARD_GAP
            - RING_BUFF_SEEK_GUARD_GAP <? i_buffer_size s + i_write then
    if b_abort s then (Ready (-1), [])
    else if b_error s then (Ready (-1), [])
    else if b_seek_request s
            && (i_buffer_size s + i_write
                  <? RING_TOTAL_CAPACITY - RING_BUFF_RW_GUARD_GAP)
    then (Ready i_write, [])
    else (Wait, [Broadcast wakeup_read_cond; TimedWait wakeup_write_cond])
  else (Ready i_write, []).

Definition WriteToBuffer_l (s : stream_sys_t) (i_write : Z)
  : outcome * stream_sys_t * list event :=
  match WaitBufferForWrite_l s i_write with
  | (Wait, ev) => (Wait, s, ev)
  | (Ready i_buffer, ev) =>
      if i_buffer <? 0 then (Ready i_buffer, s, ev)
      else
        let '(i_data_filled, l) :=
          copy_loop (Z.to_nat i_write) i_write (i_write_index s) 0 in
        let s1 := set_i_buffer_size (i_buffer_size s + i_data_filled) s in
        let s2 :=
          set_i_write_index
            (Z.rem (i_write_index s1 + i_data_filled) RING_TOTAL_CAPACITY) s1 in
        let i_cache_size' := i_cache_size s2 + i_data_filled in
        let s3 :=
          if RING_TOTAL_CAPACITY <? i_cache_size' then
            let i_diff :=
              i_cache_size' - RING_TOTAL_CAPACITY - RING_BUFF_RW_GUARD_GAP
                - RING_BUFF_SEEK_GUARD_GAP in
            set_cache
              (Z.rem (i_cache_index s2 + i_diff) RING_TOTAL_CAPACITY)
              (i_cache_size' - i_diff)
              (u64 (i_cache_offset s2 + i_diff)) s2
          else set_cache (i_cache_index s2) i_cache_size' (i_cache_offset s2) s2 in
        (Ready i_data_filled, s3,
         ev ++ memcpy_to_ring l
            ++ (if negb (b_seek_request s3)
                then [Broadcast wakeup_read_cond] else []))
  end.

(** ** Seek classification (the three-way test of [BufferThread]) *)

Inductive seek_class := LongSeek | ShortSeek | MiddleSeek.

Definition classify_seek (s : stream_sys_t) : seek_class :=
  let cached_start_offset := i_cache_offset s in
  let cached_end_offset := u64 (cached_start_offset + i_cache_size s) in
  if (i_seek_pos s <? cached_start_offset)
     || (u64 (cached_end_offset + RING_SEEK_THRESHOLD) <=? i_seek_pos s)
  then LongSeek
  else if i_seek_pos s <? cached_end_offset then ShortSeek
  else MiddleSeek.

(** The locked block that ends a short or a long seek. *)
Definition commit_seek (b_long_seek : bool) (s : stream_sys_t)
  : stream_sys_t * list event :=
  let i_source_offset := i_seek_pos s in
  let s1 := set_i_stream_offset i_source_offset s in
  let s2 :=
    if b_long_seek then
      let a := set_cache 0 0 i_source_offset s1 in
      let b := set_i_read_index (i_source_offset mod RING_TOTAL_CAPACITY) a in
      let c := set_i_write_index (i_source_offset mod RING_TOTAL_CAPACITY) b in
      set_i_buffer_size 0 c
    else
      let a := set_i_read_index (i_source_offset mod RING_TOTAL_CAPACITY) s1 in
      set_i_buffer_size
        (Z.rem (i_write_index a + RING_TOTAL_CAPACITY - i_read_index a)
           RING_TOTAL_CAPACITY) a in
  let s3 := set_seek 0 false s2 in
  (s3, if negb b_long_seek then [Broadcast wakeup_read_cond] else []).

(** ** The two threads *)

(** Where the producer stands in [BufferThread]. *)
Inductive producer_pc :=
| P_Head                          (* the test of the outer [while] *)
| P_Park                          (* the EOS park *)
| P_SeekCheck                     (* [if( b_seek_request )]: classification *)
| P_SourceSeek                    (* [stream_Seek] of a long seek *)
| P_Commit (b_long_seek : bool)   (* the locked block after [b_seek_ready] *)
| P_ReadSrc                       (* [stream_Read] *)
| P_Write (i_read_ret : Z)        (* the locked block around [WriteToBuffer_l] *)
| P_Exit                          (* after the loop *)
| P_Done.

(** Where the consumer stands: outside the filter, or inside the wait loop
    of a [Read] or a [Peek]. *)
Inductive consumer_pc :=
| C_Idle
| C_Read (has_dst : bool) (i_read : Z)
| C_Peek (has_dst : bool) (i_peek : Z)
| C_Closed.

Record config := mk_config {
  sys : stream_sys_t;
  source_offset : Z;        (* what [stream_Tell] of the source answers *)
  ppc : producer_pc;
  cpc : consumer_pc;
  cancel : bool             (* [Close] has been entered: [vlc_cancel] is due *)
}.

Definition producer_goto (c : config) (s : stream_sys_t) (pc : producer_pc)
  : config :=
  mk_config s (source_offset c) pc (cpc c) (cancel c).

Definition consumer_goto (c : config) (s : stream_sys_t) (pc : consumer_pc)
  : config :=
  mk_config s (source_offset c) (ppc c) pc (cancel c).

(** One step of [BufferThread].  [reply] is what the source returns when the
    step calls [stream_Seek] or [stream_Read]. *)
Definition BufferThread (reply : Z) (c : config)
  : option (config * list event) :=
  let s := sys c in
  match ppc c with
  | P_Head =>
      if negb (b_abort s) && negb (b_error s) then
        let i_source_offset := source_offset c in
        let s1 :=
          if i_stream_size s <=? i_source_offset
          then set_b_buffered_eos true s else s in
        Some (producer_goto c s1
                (if b_buffered_eos s1 then P_Park else P_SeekCheck),
              [SourceTell i_source_offset])
      else Some (producer_goto c s P_Exit, [])
  | P_Park =>
      let s1 := set_b_buffered_eos true s in
      if negb (b_abort s1) && negb (b_error s1) && negb (b_seek_request s1)
      then Some (producer_goto c s1 P_Park, [TimedWait wakeup_write_cond])
      else if b_abort s1 || b_error s1
      then Some (producer_goto c s1 P_Exit, [])
      else Some (producer_goto c (set_b_buffered_eos false s1) P_SeekCheck, [])
  | P_SeekCheck =>
      if b_seek_request s then
        match classify_seek s with
        | LongSeek => Some (producer_goto c s P_SourceSeek, [])
        | ShortSeek => Some (producer_goto c s (P_Commit false), [])
        | MiddleSeek =>
            let s1 := set_i_read_index (i_write_index s) s in
            let s2 := set_i_buffer_size 0 s1 in
            Some (producer_goto c s2 P_ReadSrc, [])
        end
      else Some (producer_goto c s P_ReadSrc, [])
  | P_SourceSeek =>
      let i_seek_ret := reply in
      if i_seek_ret <? 0
      then Some (producer_goto c (set_b_error true s) P_Exit,
                 [SourceSeek (i_seek_pos s) i_seek_ret])
      else Some (mk_config s (i_seek_pos s) (P_Commit true) (cpc c) (cancel c),
                 [SourceSeek (i_seek_pos s) i_seek_ret])
  | P_Commit b_long_seek =>
      let '(s1, ev) := commit_seek b_long_seek s in
      Some (producer_goto c s1 P_ReadSrc, ev)
  | P_ReadSrc =>
      let i_step_read := BYTES_PER_READ in
      let i_read_ret := reply in
      if i_step_read <? i_read_ret then None
      else if i_read_ret <? 0
      then Some (producer_goto c (set_b_error true s) P_Exit,
                 [SourceRead i_step_read i_read_ret])
      else Some (mk_config s (source_offset c + i_read_ret)
                   (P_Write i_read_ret) (cpc c) (cancel c),
                 [SourceRead i_step_read i_read_ret])
  | P_Write i_read_ret =>
      let finish (s1 : stream_sys_t) (i_fill_ret : Z) (ev : list event) :=
        let s2 :=
          if i_read_ret <? BYTES_PER_READ
          then set_b_buffered_eos true s1 else s1 in
        if i_fill_ret <? 0
        then Some (producer_goto c (set_b_error true s2) P_Exit, ev)
        else Some (producer_goto c s2 P_Head, ev) in
      if 0 <? i_read_ret then
        match WriteToBuffer_l s i_read_ret with
        | (Wait, _, ev) => Some (c, ev)
        | (Ready i_fill_ret, s1, ev) => finish s1 i_fill_ret ev
        end
      else finish s 0 []
  | P_Exit =>
      Some (producer_goto c (set_b_buffered_eos true s) P_Done,
            [Broadcast wakeup_read_cond])
  | P_Done => None
  end.

(** The places where a deferred [vlc_cancel] takes effect: the two timed
    waits and the explicit [vlc_testcancel] calls. *)
Definition cancellation_point (pc : producer_pc) : bool :=
  match pc with
  | P_Park | P_SourceSeek | P_ReadSrc | P_Write _ => true
  | _ => false
  end.

(** ** Consumer entry points *)

Definition Read (s : stream_sys_t) (has_dst : bool) (i_read : Z)
  : outcome * stream_sys_t * list event :=
  ReadFromBuffer_l s has_dst (int_of_uint i_read).

(** The first part of [Peek], before the mutex is taken: grows the scratch
    buffer.  Returns the local [p_temp_peek], or [None] when [realloc]
    failed. *)
Definition Peek_grow (s : stream_sys_t) (i_peek : Z) (alloc_ok : bool)
  : option (stream_sys_t * option Z) * list event :=
  if i_temp_peek_capacity s <? i_peek then
    if alloc_ok
    then (Some (set_temp_peek (Some i_peek) (i_temp_peek_capacity s) s,
                Some i_peek),
          [Realloc i_peek true])
    else (None, [Realloc i_peek false])
  else (Some (s, p_temp_peek s), []).

(** The locked part of [Peek]. *)
Definition Peek_locked (s : stream_sys_t) (has_dst : bool) (i_peek : Z)
  : outcome * list event :=
  PeekFromBuffer_l s has_dst (int_of_uint i_peek).

Inductive query :=
| STREAM_CAN_FASTSEEK
| STREAM_CAN_SEEK
| STREAM_GET_POSITION
| STREAM_SET_POSITION (pos : Z)
| STREAM_GET_SIZE
| STREAM_GET_CACHED_SIZE
| STREAM_OTHER.

Definition Control (s : stream_sys_t) (q : query)
  : stream_sys_t * api_ret * option api_ret * list event :=
  match q with
  | STREAM_CAN_FASTSEEK => (s, VLC_SUCCESS, Some (Ret_bool false), [])
  | STREAM_CAN_SEEK => (s, VLC_SUCCESS, Some (Ret_bool (b_can_seek s)), [])
  | STREAM_GET_POSITION =>
      (s, VLC_SUCCESS,
       Some (Ret_u64 (if b_seek_request s
                      then i_seek_pos s else i_stream_offset s)), [])
  | STREAM_SET_POSITION pos =>
      if b_can_seek s
      then (set_seek pos true s, VLC_SUCCESS, None,
            [Broadcast wakeup_write_cond])
      else (s, VLC_EGENERIC, None, [])
  | STREAM_GET_SIZE => (s, VLC_SUCCESS, Some (Ret_u64 (i_stream_size s)), [])
  | STREAM_GET_CACHED_SIZE =>
      (s, VLC_SUCCESS,
       Some (Ret_u64 (u64 (i_stream_offset s + i_buffer_size s))), [])
  | STREAM_OTHER => (s, VLC_EGENERIC, None, [])
  end.

(** What [STREAM_GET_POSITION] stores through its argument. *)
Definition get_position (s : stream_sys_t) : Z :=
  if b_seek_request s then i_seek_pos s else i_stream_offset s.

(** ** Open, Close, allocation *)

(** [sys_Alloc]: everything is zeroed by [memset]. *)
Definition sys_Alloc : stream_sys_t :=
  mk_sys 0 false false false false 0 0 0 0 0 0 0 false 0 false None 0.

(** The part of [sys_Free] that touches fields of the state. *)
Definition sys_Free (s : stream_sys_t) : stream_sys_t * list event :=
  match p_temp_peek s with
  | Some _ => (set_temp_peek None 0 s, [FreeTempPeek])
  | None => (s, [])
  end.

(** What [Open] finds in its environment. *)
Record open_env := mk_open_env {
  has_source : bool;
  source_is_filter : bool;      (* [p_stream->p_source->p_source] is set *)
  ringbuf_enable : bool;
  alloc_ok : bool;
  source_size : Z;              (* [stream_Size] *)
  source_can_fastseek : bool;
  source_can_seek : bool;
  source_tell : Z;
  clone_ok : bool
}.

Definition Open (e : open_env) : option config :=
  if negb (has_source e) then None
  else if source_is_filter e then None
  else if negb (ringbuf_enable e) then None
  else if negb (alloc_ok e) then None
  else
    let size := u64 (source_size e) in
    if size <=? 0 then None
    else if negb (clone_ok e) then None
    else
      Some (mk_config
              (mk_sys size (source_can_fastseek e) (source_can_seek e)
                 false false 0 0 0 0 0 0 0 false 0 false None 0)
              (source_tell e) P_Head C_Idle false).

(** The part of [Close] before [vlc_cancel] and [vlc_join]. *)
Definition Close (s : stream_sys_t) : stream_sys_t * list event :=
  (set_b_abort true s,
   [Broadcast wakeup_write_cond; Broadcast wakeup_read_cond]).

(** ** The transition system *)

Inductive label :=
| L_producer (reply : Z)          (* the producer runs to its next stop *)
| L_cancel                        (* the pending cancellation is delivered *)
| L_read (has_dst : bool) (i_read : Z)
| L_peek (i_peek : Z) (alloc_ok : bool)
| L_control (q : query)
| L_wake                          (* a waiting consumer call is woken *)
| L_close
| L_free.                         (* the producer is joined, [sys_Free] runs *)

Definition is_uint (x : Z) : bool := (0 <=? x) && (x <? 2 ^ 32).
Definition is_u64 (x : Z) : bool := (0 <=? x) && (x <? 2 ^ 64).

Definition finish_read (c : config) (has_dst : bool) (i_read : Z)
  : option (config * list event) :=
  match Read (sys c) has_dst i_read with
  | (Wait, s, ev) => Some (consumer_goto c s (C_Read has_dst i_read), ev)
  | (Ready r, s, ev) => Some (consumer_goto c s C_Idle, ev ++ [ReadReturns r])
  end.

Definition finish_peek (c : config) (has_dst : bool) (i_peek : Z)
  (ev0 : list event) : option (config * list event) :=
  match Peek_locked (sys c) has_dst i_peek with
  | (Wait, ev) => Some (consumer_goto c (sys c) (C_Peek has_dst i_peek), ev0 ++ ev)
  | (Ready r, ev) =>
      Some (consumer_goto c (sys c) C_Idle,
            ev0 ++ ev ++ [PeekReturns (Ret_int r)])
  end.

Definition step (l : label) (c : config) : option (config * list event) :=
  match cpc c with
  | C_Closed => None
  | pc =>
      match l with
      | L_producer reply => BufferThread reply c
      | L_cancel =>
          if cancel c && cancellation_point (ppc c)
          then Some (producer_goto c (sys c) P_Done, [])
          else None
      | L_read has_dst i_read =>
          match pc with
          | C_Idle => if is_uint i_read then finish_read c has_dst i_read
                      else None
          | _ => None
          end
      | L_peek i_peek alloc_ok =>
          match pc with
          | C_Idle =>
              if is_uint i_peek then
                match Peek_grow (sys c) i_peek alloc_ok with
                | (None, ev) =>
                    Some (c, ev ++ [PeekReturns VLC_ENOMEM])
                | (Some (s, p), ev) =>
                    finish_peek (consumer_goto c s C_Idle)
                      (match p with Some _ => true | None => false end)
                      i_peek ev
                end
              else None
          | _ => None
          end
      | L_control q =>
          match pc with
          | C_Idle =>
              if match q with
                 | STREAM_SET_POSITION pos => is_u64 pos
                 | _ => true
                 end
              then
                let '(s, status, out, ev) := Control (sys c) q in
                Some (consumer_goto c s C_Idle,
                      ev ++ [ControlReturns status out])
              else None
          | _ => None
          end
      | L_wake =>
          match pc with
          | C_Read has_dst i_read => finish_read c has_dst i_read
          | C_Peek has_dst i_peek => finish_peek c has_dst i_peek []
          | _ => None
          end
      | L_close =>
          if cancel c then None
          else
            let '(s, ev) := Close (sys c) in
            Some (mk_config s (source_offset c) (ppc c) pc true, ev)
      | L_free =>
          match pc, ppc c with
          | C_Idle, P_Done =>
              if cancel c then
                let '(s, ev) := sys_Free (sys c) in
                Some (consumer_goto c s C_Closed, ev)
              else None
          | _, _ => None
          end
      end
  end.

(** A run: the labels taken one after the other, with all events. *)
Fixpoint run (ls : list label) (c : config) : option (config * list event) :=
  match ls with
  | [] => Some (c, [])
  | l :: ls' =>
      match step l c with
      | None => None
      | Some (c1, ev1) =>
          match run ls' c1 with
          | None => None
          | Some (c2, ev2) => Some (c2, ev1 ++ ev2)
          end
      end
  end.

Inductive reachable : config -> Prop :=
| reachable_open e c : Open e = Some c -> reachable c
| reachable_step c l c' ev :
    reachable c -> step l c = Some (c', ev) -> reachable c'.

Definition run_to (ls : list label) (c : config) : option config :=
  option_map fst (run ls c).

(** ** The copy loop terminates with everything copied *)

Lemma copy_loop_filled fuel : forall i_total i_index i_data_filled,
  i_data_filled <= i_total ->
  i_total - i_data_filled <= Z.of_nat fuel ->
  fst (copy_loop fuel i_total i_index i_data_filled) = i_total.
Proof.
  induction fuel as [|fuel IH]; intros t i f Hle Hfuel.
  - simpl in *. lia.
  - cbn [copy_loop]. destruct (Z.ltb_spec f t) as [Hlt|Hge].
    + assert (Hr : Z.rem i RING_BLOCK_SIZE < RING_BLOCK_SIZE).
      { assert (Z.abs (Z.rem i RING_BLOCK_SIZE) < Z.abs RING_BLOCK_SIZE)
          by (apply Z.rem_bound_abs; consts; lia).
        consts. lia. }
      set (cp := if RING_BLOCK_SIZE - Z.rem i RING_BLOCK_SIZE <? t - f
                 then RING_BLOCK_SIZE - Z.rem i RING_BLOCK_SIZE else t - f).
      assert (Hcp : 1 <= cp <= t - f).
      { subst cp.
        destruct (Z.ltb_spec (RING_BLOCK_SIZE - Z.rem i RING_BLOCK_SIZE) (t - f));
          lia. }
      specialize (IH t (Z.rem (i + cp) RING_TOTAL_CAPACITY) (f + cp)).
      destruct (copy_loop fuel t (Z.rem (i + cp) RING_TOTAL_CAPACITY) (f + cp))
        as [r l].
      cbn [fst] in *. apply IH; lia.
    + simpl. lia.
Qed.

Lemma copy_loop_all i_total i_index :
  0 <= i_total ->
  fst (copy_loop (Z.to_nat i_total) i_total i_index 0) = i_total.
Proof. intros H. apply copy_loop_filled; lia. Qed.

(** ** Runs and reachability *)

Lemma run_app ls1 : forall ls2 c c1 ev1 c2 ev2,
  run ls1 c = Some (c1, ev1) -> run ls2 c1 = Some (c2, ev2) ->
  run (ls1 ++ ls2) c = Some (c2, ev1 ++ ev2).
Proof.
  induction ls1 as [|l ls1 IH]; intros ls2 c c1 ev1 c2 ev2 H1 H2; simpl in *.
  - inversion H1; subst. exact H2.
  - destruct (step l c) as [[c' e']|]; [|discriminate].
    destruct (run ls1 c') as [[c'' e'']|] eqn:E; [|discriminate].
    inversion H1; subst.
    rewrite (IH ls2 c' c1 e'' c2 ev2 E H2). now rewrite app_assoc.
Qed.

Lemma run_reachable ls : forall c c' ev,
  reachable c -> run ls c = Some (c', ev) -> reachable c'.
Proof.
  induction ls as [|l ls IH]; intros c c' ev Hc H; simpl in H.
  - inversion H; subst. exact Hc.
  - destruct (step l c) as [[c1 e1]|] eqn:E; [|discriminate].
    destruct (run ls c1) as [[c2 e2]|] eqn:E2; [|discriminate].
    inversion H; subst. eapply IH; [|exact E2].
    eapply reachable_step; eauto.
Qed.

Lemma run_to_reachable e c0 ls c :
  Open e = Some c0 -> run_to ls c0 = Some c -> reachable c.
Proof.
  intros Ho Hr. unfold run_to in Hr.
  destruct (run ls c0) as [[c' ev]|] eqn:E; [|discriminate].
  simpl in Hr. inversion Hr; subst.
  eapply run_reachable; [|exact E]. eapply reachable_open; eauto.
Qed.

(** ** Case analysis of one step *)

Arguments memcpy_from_ring : simpl never.
Arguments memcpy_to_ring : simpl never.

Ltac destr_match H :=
  match type of H with
  | context [match ?x with _ => _ end] =>
      lazymatch x with
      | context [match _ with _ => _ end] => fail
      | _ => destruct x eqn:?
      end
  end.

Ltac unfold_step H :=
  unfold step, BufferThread, finish_read, finish_peek, Read, Peek_locked,
    Peek_grow, Control, Close, sys_Free, ReadFromBuffer_l, PeekFromBuffer_l,
    WriteToBuffer_l, WaitBufferForRead_l, WaitBufferForWrite_l, commit_seek,
    producer_goto, consumer_goto in H;
  simpl in H.

Ltac step_inv H :=
  unfold_step H;
  repeat (destr_match H; simpl in H; try discriminate H);
  inversion H; subst; clear H; simpl in *.

(** ** Invariants of the reachable states *)

Lemma step_capacity l c c' ev :
  step l c = Some (c', ev) ->
  i_temp_peek_capacity (sys c) = 0 -> i_temp_peek_capacity (sys c') = 0.
Proof.
  intros H H0. destruct c as [s so pp cp cn]; simpl in *.
  step_inv H; auto.
Qed.

Lemma Open_sys e c :
  Open e = Some c ->
  sys c = mk_sys (u64 (source_size e)) (source_can_fastseek e)
            (source_can_seek e) false false 0 0 0 0 0 0 0 false 0 false None 0
  /\ ppc c = P_Head /\ cpc c = C_Idle /\ cancel c = false.
Proof.
  unfold Open. intros H.
  repeat (destr_match H; try discriminate H).
  inversion H; subst; simpl. auto.
Qed.

Lemma reachable_capacity c : reachable c -> i_temp_peek_capacity (sys c) = 0.
Proof.
  induction 1 as [e c Ho|c l c' ev _ IH Hs].
  - apply Open_sys in Ho. destruct Ho as [-> _]. reflexivity.
  - eapply step_capacity; eauto.
Qed.



Lemma mod_in_ring x : 0 <= x mod RING_TOTAL_CAPACITY < RING_TOTAL_CAPACITY.
Proof. apply Z.mod_pos_bound. consts. lia. Qed.

(** Turns the recorded results of the copy loops and of the comparisons
    into arithmetic facts. *)
Ltac arith_facts :=
  repeat match goal with
  | E : copy_loop (Z.to_nat ?n) ?n ?i 0 = (?z, _) |- _ =>
      let F := fresh in
      assert (F : 0 <= n -> z = n)
        by (let G := fresh in
            intros G; apply (copy_loop_all n i) in G;
            rewrite E in G; exact G);
      clear E
  end;
  repeat match goal with
  | E : (_ <? _) = true |- _ => apply Z.ltb_lt in E
  | E : (_ <? _) = false |- _ => apply Z.ltb_ge in E
  | E : (_ <=? _) = true |- _ => apply Z.leb_le in E
  | E : (_ <=? _) = false |- _ => apply Z.leb_gt in E
  end.



(** ** Concrete scenarios *)

(** A seekable source of 64 MiB, positioned at its start. *)
Definition env_64M : open_env :=
  mk_open_env true false true true (64 * 1024 * 1024) false true 0 true.

(** A seekable source of 100 bytes. *)
Definition env_100 : open_env :=
  mk_open_env true false true true 100 false true 0 true.

Definition opened (e : open_env) : config :=
  match Open e with
  | Some c => c
  | None => mk_config sys_Alloc 0 P_Done C_Closed false
  end.

(** One producer iteration that reads a full [BYTES_PER_READ] block from the
    source and writes it, then a [Read] that consumes it. *)
Definition fill_and_drain : list label :=
  [L_producer 0; L_producer 0; L_producer 32768; L_producer 0;
   L_read true 32768].

Fixpoint repeat_labels (n : nat) (ls : list label) : list label :=
  match n with
  | O => []
  | S k => ls ++ repeat_labels k ls
  end.

(** ** C10: the recorded scratch capacity *)

(** C10.  In every reachable state [i_temp_peek_capacity] is 0: no step
    writes anything else into it, [Peek] included.  Hence every [Peek] of
    [i_peek > 0] bytes finds [i_temp_peek_capacity < i_peek], calls
    [realloc] again, and leaves the recorded capacity at 0. *)
Theorem C10_temp_peek_capacity_stays_zero c :
  reachable c ->
  i_temp_peek_capacity (sys c) = 0 /\
  (forall i_peek ok c' ev,
      0 < i_peek ->
      step (L_peek i_peek ok) c = Some (c', ev) ->
      In (Realloc i_peek ok) ev /\ i_temp_peek_capacity (sys c') = 0).
Proof.
  intros Hr. pose proof (reachable_capacity c Hr) as H0.
  split; [exact H0|].
  intros i_peek ok c' ev Hpos Hs. split.
  - destruct c as [s so pp cp cn]; simpl in *.
    unfold step in Hs; simpl in Hs.
    destruct cp; try discriminate Hs.
    destruct (is_uint i_peek); [|discriminate Hs].
    unfold Peek_grow in Hs. rewrite H0 in Hs.
    destruct (Z.ltb_spec 0 i_peek) as [_|]; [|lia].
    destruct ok.
    + unfold finish_peek in Hs.
      destruct (Peek_locked _ _ _) as [[r|] e]; inversion Hs; subst;
        simpl; auto.
    + inversion Hs; subst. simpl; auto.
  - eapply step_capacity; eauto.
Qed.

(** A state in which the scratch buffer has already been grown once (to 16
    bytes by a first [Peek]) and is grown again by the next one. *)
Lemma C10_witness :
  exists c,
    run_to [L_producer 0; L_producer 0; L_producer 100; L_producer 0;
            L_peek 16 true] (opened env_100) = Some c /\
    p_temp_peek (sys c) = Some 16 /\
    i_temp_peek_capacity (sys c) = 0 /\
    (forall i_peek ok c' ev,
        0 < i_peek ->
        step (L_peek i_peek ok) c = Some (c', ev) ->
        In (Realloc i_peek ok) ev /\ i_temp_peek_capacity (sys c') = 0).
Proof.
  eexists. split; [vm_compute; reflexivity|].
  split; [reflexivity|].
  apply C10_temp_peek_capacity_stays_zero.
  apply (run_to_reachable env_100 (opened env_100)
           [L_producer 0; L_producer 0; L_producer 100; L_producer 0;
            L_peek 16 true]); vm_compute; reflexivity.
Defined.

(** ** C9: end of stream while a seek is pending *)

(** The state reached on a 100-byte source after the producer has buffered
    everything and parked, the consumer has read 10 bytes and then posted a
    seek to offset 50 that the producer has not yet looked at. *)
Definition eos_with_pending_seek : stream_sys_t :=
  mk_sys 100 false true false false 0 100 0 90 10 100 50 true 10 true None 0.

Example eos_with_pending_seek_reached :
  option_map sys
    (run_to [L_producer 0; L_producer 0; L_producer 100; L_producer 0;
             L_read true 10; L_producer 0; L_producer 0;
             L_control (STREAM_SET_POSITION 50)] (opened env_100))
  = Some eos_with_pending_seek.
Proof. vm_compute. reflexivity. Qed.

(** C9.  With [b_buffered_eos] set and a seek pending (no abort, no error),
    [WaitBufferForRead_l] leaves its loop at once with the current
    [i_buffer_size], without waiting for the seek.  [PeekFromBuffer_l] and
    [ReadFromBuffer_l] then hand out that many bytes (none when the buffer is
    empty), copied from the unchanged [i_read_index], i.e. from the position
    before the seek; the read advances the old [i_stream_offset] and the
    seek stays pending. *)
Theorem C9_eos_overrides_pending_seek s has_dst i_read :
  0 < i_read ->
  b_seek_request s = true ->
  b_buffered_eos s = true ->
  b_abort s = false ->
  b_error s = false ->
  0 <= i_buffer_size s ->
  WaitBufferForRead_l s i_read = (Ready (i_buffer_size s), []) /\
  PeekFromBuffer_l s has_dst i_read =
    (Ready (i_buffer_size s),
     if i_buffer_size s <=? 0 then []
     else memcpy_from_ring has_dst
            (snd (copy_loop (Z.to_nat (i_buffer_size s)) (i_buffer_size s)
                    (i_read_index s) 0))) /\
  exists s' ev,
    ReadFromBuffer_l s has_dst i_read = (Ready (i_buffer_size s), s', ev) /\
    b_seek_request s' = true /\
    i_seek_pos s' = i_seek_pos s /\
    i_buffer_size s' = 0 /\
    i_stream_offset s' = u64 (i_stream_offset s + i_buffer_size s).
Proof.
  intros Hpos Hseek Heos Hab Herr Hbs.
  assert (Hw : WaitBufferForRead_l s i_read = (Ready (i_buffer_size s), [])).
  { unfold WaitBufferForRead_l.
    destruct (Z.leb_spec i_read 0); [lia|].
    now rewrite Hseek, Hab, Herr, Heos. }
  assert (Hp : PeekFromBuffer_l s has_dst i_read =
    (Ready (i_buffer_size s),
     if i_buffer_size s <=? 0 then []
     else memcpy_from_ring has_dst
            (snd (copy_loop (Z.to_nat (i_buffer_size s)) (i_buffer_size s)
                    (i_read_index s) 0)))).
  { unfold PeekFromBuffer_l. rewrite Hw.
    destruct (Z.ltb_spec (i_buffer_size s) 0); [lia|].
    destruct (Z.leb_spec (i_buffer_size s) 0); [reflexivity|].
    rewrite Z.ltb_irrefl.
    pose proof (copy_loop_all (i_buffer_size s) (i_read_index s) Hbs) as Hc.
    destruct (copy_loop _ _ _ _) as [f l]. simpl in *. now subst f. }
  split; [exact Hw|]. split; [exact Hp|].
  unfold ReadFromBuffer_l. rewrite Hp.
  destruct (Z.ltb_spec (i_buffer_size s) 0); [lia|].
  do 2 eexists. split; [reflexivity|]. simpl.
  repeat split; auto. lia.
Qed.

(** On the 100-byte source: a [Read] of 20 bytes issued behind the pending
    seek to 50 returns the 90 buffered bytes of offsets 10..99. *)
Lemma C9_witness :
  WaitBufferForRead_l eos_with_pending_seek 20 = (Ready 90, []) /\
  PeekFromBuffer_l eos_with_pending_seek true 20 =
    (Ready 90, [MemcpyFromRing 0 10 0 90]) /\
  exists s' ev,
    ReadFromBuffer_l eos_with_pending_seek true 20 = (Ready 90, s', ev) /\
    b_seek_request s' = true /\
    i_seek_pos s' = 50 /\
    i_buffer_size s' = 0 /\
    i_stream_offset s' = 100.
Proof.
  apply (C9_eos_overrides_pending_seek eos_with_pending_seek true 20);
    try reflexivity.
  simpl; lia.
Defined.

(** ** Events of a step *)

(** Calls to the source stream. *)
Definition source_io (e : event) : bool :=
  match e with
  | SourceTell _ | SourceRead _ _ | SourceSeek _ _ => true
  | _ => false
  end.

(** No call to the source stream among the events. *)
Definition quiet (ev : list event) : Prop :=
  Forall (fun e => source_io e = false) ev.

(** The bytes handed out by completed [Read] calls. *)
Fixpoint consumed (ev : list event) : Z :=
  match ev with
  | [] => 0
  | ReadReturns r :: ev' => (if r <? 0 then 0 else r) + consumed ev'
  | _ :: ev' => consumed ev'
  end.

Lemma quiet_app ev1 ev2 : quiet ev1 -> quiet ev2 -> quiet (ev1 ++ ev2).
Proof. intros H1 H2. apply Forall_app. split; assumption. Qed.

Lemma quiet_memcpy_from_ring d l : quiet (memcpy_from_ring d l).
Proof.
  unfold quiet, memcpy_from_ring. destruct d; [|constructor].
  apply Forall_forall. intros e He. apply in_map_iff in He.
  destruct He as ([[[b o] f] n] & <- & _). reflexivity.
Qed.

Lemma quiet_memcpy_to_ring l : quiet (memcpy_to_ring l).
Proof.
  unfold quiet, memcpy_to_ring.
  apply Forall_forall. intros e He. apply in_map_iff in He.
  destruct He as ([[[b o] f] n] & <- & _). reflexivity.
Qed.

Lemma quiet_not_in ev e : quiet ev -> source_io e = true -> ~ In e ev.
Proof.
  intros Hq He Hin. unfold quiet in Hq. rewrite Forall_forall in Hq.
  apply Hq in Hin. congruence.
Qed.

Ltac quiet_tac :=
  repeat first
    [ apply quiet_app
    | apply quiet_memcpy_from_ring
    | apply quiet_memcpy_to_ring
    | apply Forall_nil
    | apply Forall_cons; [reflexivity|] ].

Lemma consumed_app ev1 ev2 : consumed (ev1 ++ ev2) = consumed ev1 + consumed ev2.
Proof.
  induction ev1 as [|e ev1 IH]; simpl; [reflexivity|].
  destruct e; rewrite ?IH; try reflexivity. lia.
Qed.

Lemma consumed_memcpy_from_ring d l : consumed (memcpy_from_ring d l) = 0.
Proof.
  unfold memcpy_from_ring. destruct d; [|reflexivity].
  induction l as [|[[[b o] f] n] l IH]; simpl; auto.
Qed.

Lemma consumed_memcpy_to_ring l : consumed (memcpy_to_ring l) = 0.
Proof.
  unfold memcpy_to_ring.
  induction l as [|[[[b o] f] n] l IH]; simpl; auto.
Qed.

(** ** C7: failure of the source *)

Definition producer_left_loop (pc : producer_pc) : Prop :=
  pc = P_Exit \/ pc = P_Done.

Lemma step_after_exit l c c' ev :
  step l c = Some (c', ev) ->
  b_error (sys c) = true ->
  producer_left_loop (ppc c) ->
  b_error (sys c') = true /\ producer_left_loop (ppc c') /\ quiet ev.
Proof.
  intros H He Hpc. destruct c as [s so pp cp cn]; simpl in *.
  unfold producer_left_loop in *.
  destruct Hpc as [-> | ->];
    step_inv H; try congruence;
    (split; [assumption || reflexivity|]);
    (split; [auto|]); quiet_tac.
Qed.

Lemma run_after_exit ls : forall c c' ev,
  run ls c = Some (c', ev) ->
  b_error (sys c) = true ->
  producer_left_loop (ppc c) ->
  b_error (sys c') = true /\ producer_left_loop (ppc c') /\ quiet ev.
Proof.
  induction ls as [|l ls IH]; intros c c' ev H He Hpc; simpl in H.
  - inversion H; subst. repeat split; auto. constructor.
  - destruct (step l c) as [[c1 e1]|] eqn:E; [|discriminate].
    destruct (run ls c1) as [[c2 e2]|] eqn:E2; [|discriminate].
    inversion H; subst.
    destruct (step_after_exit _ _ _ _ E He Hpc) as (He1 & Hpc1 & Hq1).
    destruct (IH _ _ _ E2 He1 Hpc1) as (He2 & Hpc2 & Hq2).
    repeat split; auto. now apply quiet_app.
Qed.

Lemma wait_for_read_interrupted s i_read :
  0 < i_read ->
  b_error s = true ->
  b_seek_request s = true \/ i_buffer_size s < i_read ->
  WaitBufferForRead_l s i_read = (Ready (-1), []).
Proof.
  intros Hpos He Hw. unfold WaitBufferForRead_l.
  destruct (Z.leb_spec i_read 0); [lia|].
  assert (Hc : b_seek_request s || (i_buffer_size s <? i_read) = true).
  { destruct Hw as [-> | Hlt]; [reflexivity|].
    apply Z.ltb_lt in Hlt. rewrite Hlt. apply orb_true_r. }
  rewrite Hc, He. now destruct (b_abort s).
Qed.

(** C7.  When [stream_Read] returns a negative value the producer sets
    [b_error] and leaves its loop.  From then on, whatever the two threads
    do: [b_error] stays set, the producer never re-enters the loop and
    never calls the source again, and every [Read] or [Peek] that has to
    wait in [WaitBufferForRead_l] (a seek is pending or fewer than
    [i_read] bytes are buffered) returns -1 at once and leaves the state
    as it is. *)
Theorem C7_source_read_failure_is_terminal c reply c1 ev1 :
  ppc c = P_ReadSrc ->
  reply < 0 ->
  step (L_producer reply) c = Some (c1, ev1) ->
  b_error (sys c1) = true /\
  ppc c1 = P_Exit /\
  forall ls c2 ev2,
    run ls c1 = Some (c2, ev2) ->
    b_error (sys c2) = true /\
    producer_left_loop (ppc c2) /\
    quiet ev2 /\
    forall has_dst i_read,
      0 < i_read ->
      b_seek_request (sys c2) = true \/ i_buffer_size (sys c2) < i_read ->
      WaitBufferForRead_l (sys c2) i_read = (Ready (-1), []) /\
      PeekFromBuffer_l (sys c2) has_dst i_read = (Ready (-1), []) /\
      ReadFromBuffer_l (sys c2) has_dst i_read = (Ready (-1), sys c2, []).
Proof.
  intros Hpc Hneg Hs.
  assert (H1 : b_error (sys c1) = true /\ ppc c1 = P_Exit).
  { destruct c as [s so pp cp cn]; simpl in *. subst pp.
    unfold step, BufferThread in Hs; simpl in Hs.
    destruct cp; try discriminate Hs;
      (destruct (Z.ltb_spec BYTES_PER_READ reply); [consts; lia|]);
      (destruct (Z.ltb_spec reply 0); [|lia]);
      inversion Hs; subst; simpl; auto. }
  destruct H1 as [He1 Hp1]. split; [exact He1|]. split; [exact Hp1|].
  intros ls c2 ev2 Hrun.
  destruct (run_after_exit ls c1 c2 ev2 Hrun He1 (or_introl Hp1))
    as (He2 & Hp2 & Hq2).
  repeat (split; [assumption|]).
  intros has_dst i_read Hpos Hw.
  pose proof (wait_for_read_interrupted _ _ Hpos He2 Hw) as Hwait.
  split; [exact Hwait|].
  assert (Hpeek : PeekFromBuffer_l (sys c2) has_dst i_read = (Ready (-1), [])).
  { unfold PeekFromBuffer_l. rewrite Hwait. reflexivity. }
  split; [exact Hpeek|].
  unfold ReadFromBuffer_l. rewrite Hpeek. reflexivity.
Qed.

(** On the 64 MiB source: the producer is about to call [stream_Read] for
    the first time. *)
Definition first_read_pending : config :=
  mk_config
    (mk_sys 67108864 false true false false 0 0 0 0 0 0 0 false 0 false None 0)
    0 P_ReadSrc C_Idle false.

Example first_read_pending_reached :
  run_to [L_producer 0; L_producer 0] (opened env_64M)
  = Some first_read_pending.
Proof. vm_compute. reflexivity. Qed.

(** The very first [stream_Read] fails. *)
Lemma C7_witness :
  ppc first_read_pending = P_ReadSrc /\
  -1 < 0 /\
  step (L_producer (-1)) first_read_pending
  = Some (producer_goto first_read_pending
            (set_b_error true (sys first_read_pending)) P_Exit,
          [SourceRead 32768 (-1)]) /\
  forall ls c2 ev2,
    run ls (producer_goto first_read_pending
              (set_b_error true (sys first_read_pending)) P_Exit)
    = Some (c2, ev2) ->
    b_error (sys c2) = true /\
    producer_left_loop (ppc c2) /\
    quiet ev2 /\
    forall has_dst i_read,
      0 < i_read ->
      b_seek_request (sys c2) = true \/ i_buffer_size (sys c2) < i_read ->
      WaitBufferForRead_l (sys c2) i_read = (Ready (-1), []) /\
      PeekFromBuffer_l (sys c2) has_dst i_read = (Ready (-1), []) /\
      ReadFromBuffer_l (sys c2) has_dst i_read = (Ready (-1), sys c2, []).
Proof.
  split; [reflexivity|]. split; [lia|]. split; [reflexivity|].
  apply (C7_source_read_failure_is_terminal first_read_pending (-1)
           (producer_goto first_read_pending
              (set_b_error true (sys first_read_pending)) P_Exit)
           [SourceRead 32768 (-1)]);
    [reflexivity | lia | reflexivity].
Defined.

(** ** C6: the position reported to the consumer *)

Definition no_set_position (l : label) : bool :=
  match l with
  | L_control (STREAM_SET_POSITION _) => false
  | _ => true
  end.

(** The step that ends a seek resolution: the producer runs the locked
    block that follows [b_seek_ready]. *)
Definition completes_seek (l : label) (c : config) : bool :=
  match l, ppc c with
  | L_producer _, P_Commit _ => true
  | _, _ => false
  end.

(** Along the run no position is posted and no resolution is completed. *)
Fixpoint seek_stays_pending (ls : list label) (c : config) : bool :=
  match ls with
  | [] => true
  | l :: ls' =>
      no_set_position l && negb (completes_seek l c)
      && match step l c with
         | Some (c1, _) => seek_stays_pending ls' c1
         | None => true
         end
  end.

(** The producer is not between the classification of a seek and the end
    of its resolution. *)
Definition not_resolving (pc : producer_pc) : bool :=
  match pc with
  | P_SourceSeek | P_Commit _ => false
  | _ => true
  end.

Lemma u64_add_l x y : u64 (u64 x + y) = u64 (x + y).
Proof. unfold u64. apply Zplus_mod_idemp_l. Qed.

Lemma step_keeps_request l c c' ev :
  step l c = Some (c', ev) ->
  no_set_position l = true ->
  completes_seek l c = false ->
  b_seek_request (sys c') = b_seek_request (sys c) /\
  i_seek_pos (sys c') = i_seek_pos (sys c).
Proof.
  intros H Hn Hc. destruct c as [s so pp cp cn]; simpl in *.
  unfold completes_seek in Hc; simpl in Hc.
  step_inv H; try discriminate; auto.
Qed.

Lemma step_after_resolution l c c' ev x :
  step l c = Some (c', ev) ->
  no_set_position l = true ->
  b_seek_request (sys c) = false ->
  not_resolving (ppc c) = true ->
  i_stream_offset (sys c) = u64 x ->
  b_seek_request (sys c') = false /\
  not_resolving (ppc c') = true /\
  i_stream_offset (sys c') = u64 (x + consumed ev).
Proof.
  intros H Hn Hr Hp Hx. destruct c as [s so pp cp cn]; simpl in *.
  step_inv H; try discriminate; try congruence;
    repeat rewrite consumed_app;
    repeat rewrite consumed_memcpy_to_ring;
    repeat rewrite consumed_memcpy_from_ring;
    simpl;
    repeat match goal with
    | E : (?a <? 0) = _ |- context [?a <? 0] => rewrite E
    end;
    rewrite ?Hx, ?u64_add_l, ?Z.add_0_r;
    repeat split; try assumption; try reflexivity;
    try (f_equal; lia).
Qed.

Lemma run_after_resolution ls : forall c c' ev x,
  run ls c = Some (c', ev) ->
  forallb no_set_position ls = true ->
  b_seek_request (sys c) = false ->
  not_resolving (ppc c) = true ->
  i_stream_offset (sys c) = u64 x ->
  b_seek_request (sys c') = false /\
  i_stream_offset (sys c') = u64 (x + consumed ev).
Proof.
  induction ls as [|l ls IH]; intros c c' ev x H Hn Hr Hp Hx; simpl in *.
  - inversion H; subst. simpl. rewrite Z.add_0_r. auto.
  - apply andb_prop in Hn. destruct Hn as [Hn1 Hn2].
    destruct (step l c) as [[c1 e1]|] eqn:E; [|discriminate].
    destruct (run ls c1) as [[c2 e2]|] eqn:E2; [|discriminate].
    inversion H; subst.
    destruct (step_after_resolution _ _ _ _ x E Hn1 Hr Hp Hx)
      as (Hr1 & Hp1 & Hx1).
    destruct (IH _ _ _ _ E2 Hn2 Hr1 Hp1 Hx1) as (Hr2 & Hx2).
    split; [exact Hr2|]. rewrite Hx2, consumed_app. f_equal. lia.
Qed.

Lemma run_keeps_request ls : forall c c' ev,
  run ls c = Some (c', ev) ->
  seek_stays_pending ls c = true ->
  b_seek_request (sys c') = b_seek_request (sys c) /\
  i_seek_pos (sys c') = i_seek_pos (sys c).
Proof.
  induction ls as [|l ls IH]; intros c c' ev H Hp; simpl in *.
  - inversion H; subst. auto.
  - destruct (step l c) as [[c1 e1]|] eqn:E; [|discriminate].
    destruct (run ls c1) as [[c2 e2]|] eqn:E2; [|discriminate].
    inversion H; subst.
    apply andb_prop in Hp. destruct Hp as [Hp Hrest].
    apply andb_prop in Hp. destruct Hp as [Hn Hc].
    apply negb_true_iff in Hc.
    destruct (step_keeps_request _ _ _ _ E Hn Hc) as [Ha Hb].
    destruct (IH _ _ _ E2 Hrest) as [Ha' Hb'].
    split; congruence.
Qed.

Lemma step_set_position c pos c1 ev :
  b_can_seek (sys c) = true ->
  step (L_control (STREAM_SET_POSITION pos)) c = Some (c1, ev) ->
  b_seek_request (sys c1) = true /\ i_seek_pos (sys c1) = pos /\
  0 <= pos < 2 ^ 64.
Proof.
  intros Hcs H. destruct c as [s so pp cp cn]; simpl in *.
  unfold step in H; simpl in H.
  destruct cp; try discriminate H.
  destruct (is_u64 pos) eqn:Hu; [|discriminate H].
  unfold Control in H. rewrite Hcs in H.
  inversion H; subst; simpl.
  unfold is_u64 in Hu. apply andb_prop in Hu. destruct Hu as [Hu1 Hu2].
  apply Z.leb_le in Hu1. apply Z.ltb_lt in Hu2. auto.
Qed.

Lemma step_completes_seek l c c' ev :
  completes_seek l c = true ->
  step l c = Some (c', ev) ->
  b_seek_request (sys c') = false /\
  i_stream_offset (sys c') = i_seek_pos (sys c) /\
  ppc c' = P_ReadSrc.
Proof.
  intros Hc H. destruct c as [s so pp cp cn]; simpl in *.
  unfold completes_seek in Hc; simpl in Hc.
  destruct l; try discriminate Hc.
  destruct pp; try discriminate Hc.
  step_inv H; auto.
Qed.

(** C6.  [STREAM_GET_POSITION] answers [i_seek_pos] while a seek is pending
    and [i_stream_offset] otherwise.  After a successful
    [STREAM_SET_POSITION pos]: as long as no other position is posted and
    the producer has not completed the resolution, the seek is still pending
    and the position reported is [pos]; once the producer completes the
    resolution, and whatever the threads do next short of posting another
    position, the position reported is [pos] plus the bytes returned by the
    [Read] calls made since (in [uint64_t] arithmetic). *)
Theorem C6_position_after_set_position c pos c1 ev0 :
  b_can_seek (sys c) = true ->
  step (L_control (STREAM_SET_POSITION pos)) c = Some (c1, ev0) ->
  (forall s,
      Control s STREAM_GET_POSITION
      = (s, VLC_SUCCESS, Some (Ret_u64 (get_position s)), []) /\
      get_position s
      = if b_seek_request s then i_seek_pos s else i_stream_offset s) /\
  forall ls c2 ev1,
    run ls c1 = Some (c2, ev1) ->
    seek_stays_pending ls c1 = true ->
    b_seek_request (sys c2) = true /\
    get_position (sys c2) = pos /\
    forall l c3 ev2 ls' c4 ev3,
      completes_seek l c2 = true ->
      step l c2 = Some (c3, ev2) ->
      run ls' c3 = Some (c4, ev3) ->
      forallb no_set_position ls' = true ->
      b_seek_request (sys c4) = false /\
      get_position (sys c4) = u64 (pos + consumed ev3).
Proof.
  intros Hcs Hset.
  split; [intros s; split; reflexivity|].
  destruct (step_set_position _ _ _ _ Hcs Hset) as (Hr1 & Hp1 & Hrange).
  intros ls c2 ev1 Hrun Hpend.
  destruct (run_keeps_request _ _ _ _ Hrun Hpend) as [Hr2 Hp2].
  rewrite Hr1 in Hr2. rewrite Hp1 in Hp2.
  split; [exact Hr2|].
  split; [unfold get_position; now rewrite Hr2|].
  intros l c3 ev2 ls' c4 ev3 Hc Hstep Hrun' Hn.
  destruct (step_completes_seek _ _ _ _ Hc Hstep) as (Hr3 & Ho3 & Hpc3).
  assert (Hx : i_stream_offset (sys c3) = u64 pos).
  { rewrite Ho3, Hp2. unfold u64. symmetry. apply Z.mod_small. exact Hrange. }
  assert (Hnr : not_resolving (ppc c3) = true) by now rewrite Hpc3.
  destruct (run_after_resolution _ _ _ _ _ Hrun' Hn Hr3 Hnr Hx) as [Hr4 Ho4].
  split; [exact Hr4|].
  unfold get_position. now rewrite Hr4.
Qed.

(** On the 64 MiB source, after the producer has written its first block. *)
Definition after_first_write : config :=
  mk_config
    (mk_sys 67108864 false true false false 0 32768 0 32768 0 32768 0 false 0
       false None 0)
    32768 P_Head C_Idle false.

Example after_first_write_reached :
  run_to [L_producer 0; L_producer 0; L_producer 32768; L_producer 0]
    (opened env_64M)
  = Some after_first_write.
Proof. vm_compute. reflexivity. Qed.

(** A seek to offset 100 is posted; it is reported while the producer
    classifies it (short), and after the resolution a [Read] of 16 bytes
    moves the reported position to 116. *)
Lemma C6_witness :
  b_can_seek (sys after_first_write) = true /\
  exists c1 ev0 c2 ev1 c3 ev2 c4 ev3,
    step (L_control (STREAM_SET_POSITION 100)) after_first_write
    = Some (c1, ev0) /\
    run [L_producer 0; L_producer 0] c1 = Some (c2, ev1) /\
    ppc c2 = P_Commit false /\
    get_position (sys c2) = 100 /\
    step (L_producer 0) c2 = Some (c3, ev2) /\
    run [L_read true 16] c3 = Some (c4, ev3) /\
    consumed ev3 = 16 /\
    get_position (sys c4) = 116.
Proof.
  split; [reflexivity|].
  pose proof (C6_position_after_set_position after_first_write 100) as T.
  let r := eval vm_compute in
             (step (L_control (STREAM_SET_POSITION 100)) after_first_write) in
  match r with
  | Some (?c1, ?ev0) =>
      specialize (T c1 ev0 eq_refl eq_refl); destruct T as [_ T];
      exists c1, ev0;
      let r2 := eval vm_compute in (run [L_producer 0; L_producer 0] c1) in
      match r2 with
      | Some (?c2, ?ev1) =>
          specialize (T [L_producer 0; L_producer 0] c2 ev1 eq_refl eq_refl);
          destruct T as (_ & T2 & T);
          exists c2, ev1;
          let r3 := eval vm_compute in (step (L_producer 0) c2) in
          match r3 with
          | Some (?c3, ?ev2) =>
              exists c3, ev2;
              let r4 := eval vm_compute in (run [L_read true 16] c3) in
              match r4 with
              | Some (?c4, ?ev3) =>
                  specialize (T (L_producer 0) c3 ev2 [L_read true 16] c4 ev3
                                eq_refl eq_refl eq_refl eq_refl);
                  destruct T as [_ T];
                  exists c4, ev3
              end
          end
      end
  end.
  do 3 (split; [reflexivity|]).
  split; [exact T2|].
  do 3 (split; [reflexivity|]).
  exact T.
Defined.

(** ** C5: classification at the edges of the cache window *)

(** The three-way test, when nothing wraps around in [uint64_t]. *)
Lemma classify_seek_cases s :
  0 <= i_cache_offset s ->
  0 <= i_cache_size s ->
  i_cache_offset s + i_cache_size s + RING_SEEK_THRESHOLD < 2 ^ 64 ->
  match classify_seek s with
  | ShortSeek =>
      i_cache_offset s <= i_seek_pos s < i_cache_offset s + i_cache_size s
  | MiddleSeek =>
      i_cache_offset s + i_cache_size s <= i_seek_pos s
      < i_cache_offset s + i_cache_size s + RING_SEEK_THRESHOLD
  | LongSeek =>
      i_seek_pos s < i_cache_offset s \/
      i_cache_offset s + i_cache_size s + RING_SEEK_THRESHOLD <= i_seek_pos s
  end.
Proof.
  intros Ho Hs Hmax. unfold classify_seek, u64.
  assert (HT : 0 < RING_SEEK_THRESHOLD) by (consts; lia).
  rewrite (Z.mod_small (i_cache_offset s + i_cache_size s)) by lia.
  rewrite Z.mod_small by lia.
  destruct (Z.ltb_spec (i_seek_pos s) (i_cache_offset s)); simpl; [lia|].
  destruct (Z.leb_spec
              (i_cache_offset s + i_cache_size s + RING_SEEK_THRESHOLD)
              (i_seek_pos s)); [lia|].
  destruct (Z.ltb_spec (i_seek_pos s) (i_cache_offset s + i_cache_size s));
    lia.
Qed.

(** On the 64 MiB source, right after a long seek to offset 4 MiB has been
    resolved: the cache window is the empty window at 4194304. *)
Definition empty_window_at_4M : config :=
  mk_config
    (mk_sys 67108864 false true false false 0 0 4194304 0 4194304 4194304 0
       false 4194304 false None 0)
    4194304 P_ReadSrc C_Idle false.

(** C5, as stated, fails on an empty cache window: with [i_cache_offset] =
    4194304 and [i_cache_size] = 0, a seek to [i_cache_offset + i_cache_size
    - 1] lies before the window and is classified long, not short. *)
Lemma C5_counterexample_empty_window :
  run_to [L_control (STREAM_SET_POSITION 4194304); L_producer 0; L_producer 0;
          L_producer 0; L_producer 0] (opened env_64M)
  = Some empty_window_at_4M /\
  i_cache_offset (sys empty_window_at_4M) = 4194304 /\
  i_cache_size (sys empty_window_at_4M) = 0 /\
  classify_seek
    (set_seek (i_cache_offset (sys empty_window_at_4M)
               + i_cache_size (sys empty_window_at_4M) - 1) true
       (sys empty_window_at_4M))
  = LongSeek.
Proof. vm_compute. repeat split; reflexivity. Qed.

(** C5, amended.  For every cache window that holds at least one byte (and
    whose end plus [RING_SEEK_THRESHOLD] is representable in [uint64_t]): a
    pending seek to [i_cache_offset + i_cache_size - 1] is classified short,
    one to [i_cache_offset + i_cache_size] middle, and one to
    [i_cache_offset + i_cache_size + RING_SEEK_THRESHOLD] long. *)
Theorem C5_classification_at_window_end s :
  1 <= i_cache_size s ->
  0 <= i_cache_offset s ->
  i_cache_offset s + i_cache_size s + RING_SEEK_THRESHOLD < 2 ^ 64 ->
  classify_seek (set_seek (i_cache_offset s + i_cache_size s - 1) true s)
  = ShortSeek /\
  classify_seek (set_seek (i_cache_offset s + i_cache_size s) true s)
  = MiddleSeek /\
  classify_seek
    (set_seek (i_cache_offset s + i_cache_size s + RING_SEEK_THRESHOLD) true s)
  = LongSeek.
Proof.
  intros Hs Ho Hmax.
  assert (HT : 0 < RING_SEEK_THRESHOLD) by (consts; lia).
  repeat split.
  - pose proof (classify_seek_cases
                  (set_seek (i_cache_offset s + i_cache_size s - 1) true s))
      as H.
    simpl in H. specialize (H Ho ltac:(lia) Hmax).
    destruct (classify_seek _); [lia|reflexivity|lia].
  - pose proof (classify_seek_cases
                  (set_seek (i_cache_offset s + i_cache_size s) true s)) as H.
    simpl in H. specialize (H Ho ltac:(lia) Hmax).
    destruct (classify_seek _); [lia|lia|reflexivity].
  - pose proof (classify_seek_cases
                  (set_seek (i_cache_offset s + i_cache_size s
                             + RING_SEEK_THRESHOLD) true s)) as H.
    simpl in H. specialize (H Ho ltac:(lia) Hmax).
    destruct (classify_seek _); [reflexivity|lia|lia].
Qed.

(** The cache window [0, 32768) after the first write. *)
Lemma C5_witness :
  classify_seek (set_seek 32767 true (sys after_first_write)) = ShortSeek /\
  classify_seek (set_seek 32768 true (sys after_first_write)) = MiddleSeek /\
  classify_seek (set_seek (32768 + 1048576) true (sys after_first_write))
  = LongSeek.
Proof.
  apply (C5_classification_at_window_end (sys after_first_write));
    simpl; consts; lia.
Defined.

(** ** C4: the free-space test of the producer *)

(** On the 64 MiB source: 319 blocks written and consumed, a short seek
    back to offset 1024 resolved, the producer waiting in
    [WaitBufferForWrite_l] with its next block, and a new seek posted. *)
Definition seek_gap_boundary : stream_sys_t :=
  mk_sys 67108864 false true false false 0 10452992 0 10451968 1024 10452992
    1024 true 1024 false None 0.

Definition seek_gap_boundary_schedule : list label :=
  repeat_labels 319 fill_and_drain
  ++ [L_control (STREAM_SET_POSITION 1024);
      L_producer 0; L_producer 0; L_producer 0; L_producer 32768;
      L_producer 0;
      L_control (STREAM_SET_POSITION 1024)].

(** C4, as stated, fails at the boundary: a seek is pending, neither abort
    nor error is set and [i_buffer_size + 32768] equals
    [RING_TOTAL_CAPACITY - RING_BUFF_RW_GUARD_GAP], yet
    [WaitBufferForWrite_l] goes on waiting. *)
Lemma C4_counterexample_at_boundary :
  option_map sys (run_to seek_gap_boundary_schedule (opened env_64M))
  = Some seek_gap_boundary /\
  b_seek_request seek_gap_boundary = true /\
  b_abort seek_gap_boundary = false /\
  b_error seek_gap_boundary = false /\
  i_buffer_size seek_gap_boundary + 32768
  <= RING_TOTAL_CAPACITY - RING_BUFF_RW_GUARD_GAP /\
  WaitBufferForWrite_l seek_gap_boundary 32768
  = (Wait, [Broadcast wakeup_read_cond; TimedWait wakeup_write_cond]).
Proof.
  split; [vm_compute; reflexivity|].
  repeat split; reflexivity.
Qed.

(** C4, amended.  For a write of [i_write > 0] bytes with neither abort nor
    error set: while a seek is pending, [WaitBufferForWrite_l] lets the
    write through whenever [i_buffer_size + i_write] is strictly below
    [RING_TOTAL_CAPACITY - RING_BUFF_RW_GUARD_GAP]; when no seek is pending
    it lets the write through exactly when [i_buffer_size + i_write] is at
    most [RING_TOTAL_CAPACITY - RING_BUFF_RW_GUARD_GAP -
    RING_BUFF_SEEK_GUARD_GAP], and waits otherwise. *)
Theorem C4_wait_for_write_thresholds s i_write :
  0 < i_write ->
  b_abort s = false ->
  b_error s = false ->
  (b_seek_request s = true ->
   i_buffer_size s + i_write < RING_TOTAL_CAPACITY - RING_BUFF_RW_GUARD_GAP ->
   fst (WaitBufferForWrite_l s i_write) = Ready i_write) /\
  (b_seek_request s = false ->
   (i_buffer_size s + i_write
    <= RING_TOTAL_CAPACITY - RING_BUFF_RW_GUARD_GAP - RING_BUFF_SEEK_GUARD_GAP ->
    fst (WaitBufferForWrite_l s i_write) = Ready i_write) /\
   (RING_TOTAL_CAPACITY - RING_BUFF_RW_GUARD_GAP - RING_BUFF_SEEK_GUARD_GAP
    < i_buffer_size s + i_write ->
    fst (WaitBufferForWrite_l s i_write) = Wait)).
Proof.
  intros Hpos Hab Herr. unfold WaitBufferForWrite_l.
  destruct (Z.leb_spec i_write 0); [lia|].
  rewrite Hab, Herr.
  split.
  - intros Hseek Hlt. rewrite Hseek.
    destruct (Z.ltb_spec
                (RING_TOTAL_CAPACITY - RING_BUFF_RW_GUARD_GAP
                 - RING_BUFF_SEEK_GUARD_GAP) (i_buffer_size s + i_write));
      [|reflexivity].
    destruct (Z.ltb_spec (i_buffer_size s + i_write)
                (RING_TOTAL_CAPACITY - RING_BUFF_RW_GUARD_GAP));
      [reflexivity|lia].
  - intros Hseek. rewrite Hseek. split; intros Hcmp.
    + destruct (Z.ltb_spec
                  (RING_TOTAL_CAPACITY - RING_BUFF_RW_GUARD_GAP
                   - RING_BUFF_SEEK_GUARD_GAP) (i_buffer_size s + i_write));
        [lia|reflexivity].
    + destruct (Z.ltb_spec
                  (RING_TOTAL_CAPACITY - RING_BUFF_RW_GUARD_GAP
                   - RING_BUFF_SEEK_GUARD_GAP) (i_buffer_size s + i_write));
        [reflexivity|lia].
Qed.

(** One byte below the boundary of [seek_gap_boundary] the write goes into
    the seek gap. *)
Lemma C4_witness :
  fst (WaitBufferForWrite_l seek_gap_boundary 32767) = Ready 32767.
Proof.
  exact (proj1 (C4_wait_for_write_thresholds seek_gap_boundary 32767
                  eq_refl eq_refl eq_refl) eq_refl eq_refl).
Defined.

(** ** C3: resolution of a short seek *)

(** On the 64 MiB source: a long seek to offset 4194309 has been resolved,
    one block has been written, and a seek to offset 4194319 has just been
    classified short. *)
Definition short_seek_after_long : config :=
  mk_config
    (mk_sys 67108864 false true false false 0 32768 4194309 32768 4194309
       4227077 4194319 true 4194309 false None 0)
    4227077 (P_Commit false) C_Idle false.











(** ** C2: the end of a seek resolution *)

(** On the 64 MiB source: a seek to offset 4 MiB has been classified long
    and [stream_Seek] has succeeded. *)
Definition long_seek_ready : config :=
  mk_config
    (mk_sys 67108864 false true false false 0 0 0 0 0 0 4194304 true 0 false
       None 0)
    4194304 (P_Commit true) C_Idle false.

(** C2, as stated, fails for a long seek: the resolution clears
    [b_seek_request] but broadcasts nothing. *)
Lemma C2_counterexample_long_seek :
  run_to [L_control (STREAM_SET_POSITION 4194304); L_producer 0; L_producer 0;
          L_producer 0] (opened env_64M)
  = Some long_seek_ready /\
  step (L_producer 0) long_seek_ready = Some (empty_window_at_4M, []) /\
  b_seek_request (sys empty_window_at_4M) = false.
Proof. vm_compute. repeat split; reflexivity. Qed.

(** C2, amended.  When the producer completes the resolution of a seek
    classified as short, it clears [b_seek_request] and broadcasts
    [wakeup_read_cond]; when it completes one classified as long, it clears
    [b_seek_request] and broadcasts nothing; on a middle classification it
    empties the live window, leaves [b_seek_request] and [i_seek_pos] as
    they are and goes on to read the source. *)
Theorem C2_end_of_seek_resolution c reply c' ev :
  step (L_producer reply) c = Some (c', ev) ->
  (ppc c = P_Commit false ->
   b_seek_request (sys c') = false /\ ev = [Broadcast wakeup_read_cond]) /\
  (ppc c = P_Commit true ->
   b_seek_request (sys c') = false /\ ev = []) /\
  (ppc c = P_SeekCheck ->
   b_seek_request (sys c) = true ->
   classify_seek (sys c) = MiddleSeek ->
   b_seek_request (sys c') = true /\
   i_seek_pos (sys c') = i_seek_pos (sys c) /\
   i_buffer_size (sys c') = 0 /\
   i_read_index (sys c') = i_write_index (sys c) /\
   ppc c' = P_ReadSrc /\
   ev = []).
Proof.
  intros H. destruct c as [s so pp cp cn]; simpl in *.
  unfold step, BufferThread, commit_seek in H; simpl in H.
  repeat split; intros; subst; simpl in *;
    repeat match goal with
    | E : ?x = _, H0 : context [?x] |- _ => rewrite E in H0
    end;
    destruct cp; try discriminate H; inversion H; subst; simpl; auto.
Qed.

Lemma C2_witness :
  (b_seek_request (sys empty_window_at_4M) = false /\
   @nil event = []) /\
  exists c' ev,
    step (L_producer 0) short_seek_after_long = Some (c', ev) /\
    b_seek_request (sys c') = false /\
    ev = [Broadcast wakeup_read_cond].
Proof.
  split.
  - exact (proj1 (proj2 (C2_end_of_seek_resolution long_seek_ready 0
                           empty_window_at_4M [] eq_refl)) eq_refl).
  - do 2 eexists. split; [reflexivity|].
    exact (proj1 (C2_end_of_seek_resolution short_seek_after_long 0 _ _
                    eq_refl) eq_refl).
Defined.

(** ** C1: the bound on the cache window *)

(** Whenever [WriteToBuffer_l] slides the cache window, the window it
    leaves is [RING_BUFF_RW_GUARD_GAP + RING_BUFF_SEEK_GUARD_GAP] bytes
    larger than the ring: [i_diff] is computed as
    [i_cache_size - RING_TOTAL_CAPACITY - gaps] where
    [i_cache_size - (RING_TOTAL_CAPACITY - gaps)] would restore the bound. *)
Lemma WriteToBuffer_l_slide s i_write r s' ev :
  0 < i_write ->
  WriteToBuffer_l s i_write = (Ready r, s', ev) ->
  0 <= r ->
  RING_TOTAL_CAPACITY < i_cache_size s + i_write ->
  r = i_write /\
  i_cache_size s'
  = RING_TOTAL_CAPACITY + RING_BUFF_RW_GUARD_GAP + RING_BUFF_SEEK_GUARD_GAP.
Proof.
  intros Hpos H Hr Hover. unfold WriteToBuffer_l in H.
  destruct (WaitBufferForWrite_l s i_write) as [[i_buffer|] e0];
    [|discriminate H].
  destruct (Z.ltb_spec i_buffer 0).
  - injection H as Hr' Hs' He'. lia.
  - pose proof (copy_loop_all i_write (i_write_index s) ltac:(lia)) as Hc.
    destruct (copy_loop _ _ _ _) as [f l]. simpl in Hc. subst f.
    simpl in H.
    destruct (Z.ltb_spec RING_TOTAL_CAPACITY (i_cache_size s + i_write));
      [|lia].
    injection H as Hr' Hs' He'. subst r s'. cbn [i_cache_size set_cache]. split; [reflexivity|lia].
Qed.

(** The state reached on the 64 MiB source when the consumer has read 321
    blocks of 32 KiB, each right after the producer has written it. *)
Definition after_321_blocks : config :=
  mk_config
    (mk_sys 67108864 false true false false (-1016832) 11535360
       18446744073708534784 0 32768 32768 0 false 10518528 false None 0)
    10518528 P_Head C_Idle false.

(** C1 fails on the code.  The 321st write takes [i_cache_size] over
    [RING_TOTAL_CAPACITY] and triggers the slide; [i_diff] is negative, the
    slide leaves [i_cache_size] at 11535360, above [RING_TOTAL_CAPACITY] =
    10485760, moves [i_cache_index] to -1016832 and wraps [i_cache_offset]
    around in [uint64_t]. *)
Theorem C1_cache_size_exceeds_capacity :
  run_to (repeat_labels 321 fill_and_drain) (opened env_64M)
  = Some after_321_blocks /\
  reachable after_321_blocks /\
  i_cache_size (sys after_321_blocks)
  = RING_TOTAL_CAPACITY + RING_BUFF_RW_GUARD_GAP + RING_BUFF_SEEK_GUARD_GAP /\
  RING_TOTAL_CAPACITY < i_cache_size (sys after_321_blocks).
Proof.
  assert (H : run_to (repeat_labels 321 fill_and_drain) (opened env_64M)
              = Some after_321_blocks) by (vm_compute; reflexivity).
  split; [exact H|].
  split; [exact (run_to_reachable env_64M _ _ _ eq_refl H)|].
  split; reflexivity.
Qed.

(** ** C8: producer and consumer waiting for each other *)

Definition not_close (l : label) : bool :=
  match l with
  | L_close => false
  | _ => true
  end.

(** On the 64 MiB source: the consumer reads 319 blocks as they are
    written, seeks back to offset 0 (a short seek, which makes the whole
    cache window live again), and, once the producer has resolved that seek
    and waits in [WaitBufferForWrite_l] with its next block, posts a second
    seek and calls [Read]. *)
Definition deadlock_schedule : list label :=
  repeat_labels 319 fill_and_drain
  ++ [L_control (STREAM_SET_POSITION 0);
      L_producer 0; L_producer 0; L_producer 0; L_producer 32768;
      L_producer 0;
      L_control (STREAM_SET_POSITION 0);
      L_read true 1].

Definition deadlocked : config :=
  mk_config
    (mk_sys 67108864 false true false false 0 10452992 0 10452992 0 10452992 0
       true 0 false None 0)
    10485760 (P_Write 32768) (C_Read true 1) false.

Lemma deadlocked_step l c' ev :
  not_close l = true -> step l deadlocked = Some (c', ev) -> c' = deadlocked.
Proof.
  intros Hl H.
  destruct l; try discriminate Hl; vm_compute in H;
    try discriminate H; inversion H; reflexivity.
Qed.

(** C8 fails on the code.  The schedule above leads to a state in which the
    producer waits in [WaitBufferForWrite_l] (the live window plus its
    block fill the whole ring, so even the seek-pending relaxation does not
    apply) and the consumer waits in [WaitBufferForRead_l] behind the
    pending seek, with neither abort nor error set.  Every step either
    thread can take from there, short of [Close], wakes it up and puts it
    back to sleep in the same state. *)
Theorem C8_deadlock_reachable :
  run_to deadlock_schedule (opened env_64M) = Some deadlocked /\
  reachable deadlocked /\
  ppc deadlocked = P_Write 32768 /\
  cpc deadlocked = C_Read true 1 /\
  b_seek_request (sys deadlocked) = true /\
  b_abort (sys deadlocked) = false /\
  b_error (sys deadlocked) = false /\
  b_buffered_eos (sys deadlocked) = false /\
  WaitBufferForWrite_l (sys deadlocked) 32768
  = (Wait, [Broadcast wakeup_read_cond; TimedWait wakeup_write_cond]) /\
  WaitBufferForRead_l (sys deadlocked) 1
  = (Wait, [TimedWait wakeup_read_cond]) /\
  forall ls c' ev,
    forallb not_close ls = true ->
    run ls deadlocked = Some (c', ev) ->
    c' = deadlocked.
Proof.
  assert (H : run_to deadlock_schedule (opened env_64M) = Some deadlocked)
    by (vm_compute; reflexivity).
  split; [exact H|].
  split; [exact (run_to_reachable env_64M _ _ _ eq_refl H)|].
  do 8 (split; [reflexivity|]).
  induction ls as [|l ls IH]; intros c' ev Hn Hrun; simpl in *.
  - inversion Hrun; reflexivity.
  - apply andb_prop in Hn. destruct Hn as [Hl Hn].
    destruct (step l deadlocked) as [[c1 e1]|] eqn:E; [|discriminate].
    apply deadlocked_step in E; [|exact Hl]. subst c1.
    destruct (run ls deadlocked) as [[c2 e2]|] eqn:E2; [|discriminate].
    inversion Hrun; subst. eapply IH; eauto.
Qed.

(** * Further properties of the ring *)

(** ** The payload: what the copy loops do to memory *)

(** The ring storage [p_buffer[block][offset]] and a caller's buffer, with
    bytes as integers. *)
Definition ring_mem := Z -> Z -> Z.
Definition buffer := Z -> Z.

(** [memcpy( p_buffer[b] + o, buf + d, n )]. *)
Definition memcpy_in (buf : buffer) (m : ring_mem) (c : Z * Z * Z * Z)
  : ring_mem :=
  let '(b, o, d, n) := c in
  fun b' o' =>
    if (b' =? b) && (o <=? o') && (o' <? o + n)
    then buf (d + (o' - o)) else m b' o'.

(** [memcpy( dst + d, p_buffer[b] + o, n )]. *)
Definition memcpy_out (m : ring_mem) (dst : buffer) (c : Z * Z * Z * Z)
  : buffer :=
  let '(b, o, d, n) := c in
  fun k =>
    if (d <=? k) && (k <? d + n) then m b (o + (k - d)) else dst k.

(** The ring after the [MemcpyToRing] events of a step, and the caller's
    buffer after its [MemcpyFromRing] events. *)
Fixpoint ring_after (buf : buffer) (m : ring_mem) (ev : list event)
  : ring_mem :=
  match ev with
  | [] => m
  | MemcpyToRing b o d n :: ev' => ring_after buf (memcpy_in buf m (b, o, d, n)) ev'
  | _ :: ev' => ring_after buf m ev'
  end.

Fixpoint buffer_after (m : ring_mem) (dst : buffer) (ev : list event)
  : buffer :=
  match ev with
  | [] => dst
  | MemcpyFromRing b o d n :: ev' =>
      buffer_after m (memcpy_out m dst (b, o, d, n)) ev'
  | _ :: ev' => buffer_after m dst ev'
  end.

(** The byte at a position of the ring seen as one array of
    [RING_TOTAL_CAPACITY] bytes. *)
Definition ring_at (m : ring_mem) (pos : Z) : Z :=
  m (pos / RING_BLOCK_SIZE) (pos mod RING_BLOCK_SIZE).

(** A piece copied by one [memcpy] lies inside one allocated block. *)
Definition chunk_in_block (c : Z * Z * Z * Z) : Prop :=
  let '(b, o, d, n) := c in
  0 <= b < RING_BLOCK_COUNT /\ 0 <= o /\ 0 < n /\ o + n <= RING_BLOCK_SIZE.

Definition chunk_length (c : Z * Z * Z * Z) : Z :=
  let '(_, _, _, n) := c in n.

Definition total_length (l : list (Z * Z * Z * Z)) : Z :=
  fold_right (fun c acc => chunk_length c + acc) 0 l.

Ltac euclid := Z.to_euclidean_division_equations; lia.

(** One turn of the loop from an index inside the ring. *)
Lemma copy_turn i t f :
  0 <= i < RING_TOTAL_CAPACITY -> f < t ->
  let o := Z.rem i RING_BLOCK_SIZE in
  let b := Z.quot i RING_BLOCK_SIZE in
  let cp := if RING_BLOCK_SIZE - o <? t - f then RING_BLOCK_SIZE - o else t - f in
  b = i / RING_BLOCK_SIZE /\ o = i mod RING_BLOCK_SIZE /\
  0 <= b < RING_BLOCK_COUNT /\ 0 <= o /\ 1 <= cp <= t - f /\
  o + cp <= RING_BLOCK_SIZE /\ i + cp <= RING_TOTAL_CAPACITY /\
  Z.rem (i + cp) RING_TOTAL_CAPACITY = (i + cp) mod RING_TOTAL_CAPACITY /\
  0 <= Z.rem (i + cp) RING_TOTAL_CAPACITY < RING_TOTAL_CAPACITY.
Proof.
  intros Hi Hf o b cp.
  assert (Hb : b = i / RING_BLOCK_SIZE)
    by (apply Z.quot_div_nonneg; consts; lia).
  assert (Ho : o = i mod RING_BLOCK_SIZE)
    by (apply Z.rem_mod_nonneg; consts; lia).
  assert (Hcp : cp = if RING_BLOCK_SIZE - o <? t - f
                     then RING_BLOCK_SIZE - o else t - f) by reflexivity.
  clearbody o b cp.
  assert (Ho2 : 0 <= o < RING_BLOCK_SIZE)
    by (subst o; apply Z.mod_pos_bound; consts; lia).
  assert (Hcp2 : 1 <= cp <= t - f /\ o + cp <= RING_BLOCK_SIZE).
  { subst cp. destruct (Z.ltb_spec (RING_BLOCK_SIZE - o) (t - f)); lia. }
  assert (Hb2 : 0 <= b < RING_BLOCK_COUNT /\ i + cp <= RING_TOTAL_CAPACITY).
  { subst b o. unfold RING_BLOCK_COUNT. consts. euclid. }
  assert (Hrem : Z.rem (i + cp) RING_TOTAL_CAPACITY
                 = (i + cp) mod RING_TOTAL_CAPACITY)
    by (apply Z.rem_mod_nonneg; consts; lia).
  repeat split; try lia.
  - rewrite Hrem. apply Z.mod_pos_bound. consts. lia.
  - rewrite Hrem. apply Z.mod_pos_bound. consts. lia.
Qed.

Lemma copy_loop_chunks fuel : forall t i f,
  0 <= i < RING_TOTAL_CAPACITY ->
  f <= t ->
  t - f <= Z.of_nat fuel ->
  Forall chunk_in_block (snd (copy_loop fuel t i f)) /\
  total_length (snd (copy_loop fuel t i f)) = t - f.
Proof.
  induction fuel as [|fuel IH]; intros t i f Hi Hf Hfuel.
  - simpl. split; [constructor|]. simpl in Hfuel. lia.
  - cbn [copy_loop]. destruct (Z.ltb_spec f t) as [Hlt|Hge].
    + pose proof (copy_turn i t f Hi Hlt) as T. cbv zeta in T.
      set (o := Z.rem i RING_BLOCK_SIZE) in *.
      set (b := Z.quot i RING_BLOCK_SIZE) in *.
      set (cp := if RING_BLOCK_SIZE - o <? t - f
                 then RING_BLOCK_SIZE - o else t - f) in *.
      destruct T as (_ & _ & Hb & Ho & Hcp & Hoc & _ & _ & Hnext).
      specialize (IH t (Z.rem (i + cp) RING_TOTAL_CAPACITY) (f + cp)
                    Hnext ltac:(lia) ltac:(lia)).
      destruct (copy_loop fuel t (Z.rem (i + cp) RING_TOTAL_CAPACITY) (f + cp))
        as [r l].
      cbn [snd] in *. destruct IH as [IH1 IH2]. split.
      * constructor; [|exact IH1]. unfold chunk_in_block. lia.
      * unfold total_length in *. cbn [fold_right chunk_length].
        rewrite IH2. lia.
    + simpl. split; [constructor|lia].
Qed.

Definition read_chunks (m : ring_mem) (dst : buffer) (l : list (Z * Z * Z * Z))
  : buffer :=
  fold_left (memcpy_out m) l dst.

Definition write_chunks (buf : buffer) (m : ring_mem) (l : list (Z * Z * Z * Z))
  : ring_mem :=
  fold_left (memcpy_in buf) l m.

(** What the read loop leaves in the caller's buffer. *)
Lemma copy_loop_reads m fuel : forall t i f dst k,
  0 <= i < RING_TOTAL_CAPACITY ->
  0 <= f <= t ->
  t - f <= Z.of_nat fuel ->
  read_chunks m dst (snd (copy_loop fuel t i f)) k
  = if (f <=? k) && (k <? t)
    then ring_at m ((i + (k - f)) mod RING_TOTAL_CAPACITY)
    else dst k.
Proof.
  induction fuel as [|fuel IH]; intros t i f dst k Hi Hf Hfuel.
  - simpl in *. destruct (Z.leb_spec f k), (Z.ltb_spec k t); simpl; lia || auto.
  - cbn [copy_loop]. destruct (Z.ltb_spec f t) as [Hlt|Hge].
    + pose proof (copy_turn i t f Hi Hlt) as T. cbv zeta in T.
      set (o := Z.rem i RING_BLOCK_SIZE) in *.
      set (b := Z.quot i RING_BLOCK_SIZE) in *.
      set (cp := if RING_BLOCK_SIZE - o <? t - f
                 then RING_BLOCK_SIZE - o else t - f) in *.
      destruct T as (Hbd & Hom & Hb & Ho & Hcp & Hoc & Hic & Hrem & Hnext).
      specialize (IH t (Z.rem (i + cp) RING_TOTAL_CAPACITY) (f + cp)
                    (memcpy_out m dst (b, o, f, cp)) k
                    Hnext ltac:(lia) ltac:(lia)).
      destruct (copy_loop fuel t (Z.rem (i + cp) RING_TOTAL_CAPACITY) (f + cp))
        as [r l].
      cbn [snd] in *. unfold read_chunks in *. cbn [fold_left].
      rewrite IH. clear IH.
      destruct (Z.leb_spec (f + cp) k), (Z.ltb_spec k t); cbn [andb].
      * destruct (Z.leb_spec f k); [|lia]. cbn [andb].
        rewrite Hrem. f_equal.
        rewrite Zplus_mod_idemp_l. f_equal. lia.
      * destruct (Z.leb_spec f k); [|lia]. cbn [andb].
        unfold memcpy_out.
        destruct (Z.ltb_spec k (f + cp)); [lia|]. rewrite andb_false_r.
        reflexivity.
      * unfold memcpy_out.
        destruct (Z.leb_spec f k); cbn [andb]; [|reflexivity].
        destruct (Z.ltb_spec k (f + cp)); [|lia].
        unfold ring_at.
        rewrite (Z.mod_small (i + (k - f))) by lia.
        assert (Hd : (i + (k - f)) / RING_BLOCK_SIZE = b
                     /\ (i + (k - f)) mod RING_BLOCK_SIZE = o + (k - f)).
        { rewrite Hbd, Hom in *. clear Hrem Hnext. consts. euclid. }
        destruct Hd as [-> ->]. reflexivity.
      * lia.
    + simpl. destruct (Z.leb_spec f k), (Z.ltb_spec k t); simpl; lia || auto.
Qed.

(** What the write loop leaves in the ring. *)
Lemma copy_loop_writes buf fuel : forall t i f m pos,
  0 <= i < RING_TOTAL_CAPACITY ->
  0 <= f <= t ->
  t - f <= Z.of_nat fuel ->
  t - f <= RING_TOTAL_CAPACITY ->
  0 <= pos < RING_TOTAL_CAPACITY ->
  ring_at (write_chunks buf m (snd (copy_loop fuel t i f))) pos
  = if (pos - i) mod RING_TOTAL_CAPACITY <? t - f
    then buf (f + (pos - i) mod RING_TOTAL_CAPACITY)
    else ring_at m pos.
Proof.
  induction fuel as [|fuel IH]; intros t i f m pos Hi Hf Hfuel Hcap Hpos.
  - simpl in *.
    destruct (Z.ltb_spec ((pos - i) mod RING_TOTAL_CAPACITY) (t - f));
      [|reflexivity].
    assert (0 <= (pos - i) mod RING_TOTAL_CAPACITY)
      by (apply Z.mod_pos_bound; consts; lia).
    lia.
  - cbn [copy_loop]. destruct (Z.ltb_spec f t) as [Hlt|Hge].
    + pose proof (copy_turn i t f Hi Hlt) as T. cbv zeta in T.
      set (o := Z.rem i RING_BLOCK_SIZE) in *.
      set (b := Z.quot i RING_BLOCK_SIZE) in *.
      set (cp := if RING_BLOCK_SIZE - o <? t - f
                 then RING_BLOCK_SIZE - o else t - f) in *.
      destruct T as (Hbd & Hom & Hb & Ho & Hcp & Hoc & Hic & Hrem & Hnext).
      specialize (IH t (Z.rem (i + cp) RING_TOTAL_CAPACITY) (f + cp)
                    (memcpy_in buf m (b, o, f, cp)) pos
                    Hnext ltac:(lia) ltac:(lia) ltac:(lia) Hpos).
      destruct (copy_loop fuel t (Z.rem (i + cp) RING_TOTAL_CAPACITY) (f + cp))
        as [r l].
      cbn [snd] in *. unfold write_chunks in *. cbn [fold_left].
      rewrite IH. clear IH. rewrite Hrem.
      set (d := (pos - i) mod RING_TOTAL_CAPACITY).
      assert (Hd : 0 <= d < RING_TOTAL_CAPACITY)
        by (apply Z.mod_pos_bound; consts; lia).
      destruct (Z.ltb_spec d cp) as [Hin|Hout].
      * (* [pos] is written by this memcpy *)
        assert (Hp : pos = i + d).
        { subst d. clear Hrem Hnext Hbd Hom. consts. euclid. }
        assert (Hn : (pos - (i + cp) mod RING_TOTAL_CAPACITY)
                       mod RING_TOTAL_CAPACITY
                     = d - cp + RING_TOTAL_CAPACITY).
        { rewrite Hp. clear Hrem Hnext Hbd Hom. consts. euclid. }
        rewrite Hn.
        destruct (Z.ltb_spec (d - cp + RING_TOTAL_CAPACITY) (t - (f + cp)));
          [lia|].
        destruct (Z.ltb_spec d (t - f)); [|lia].
        unfold ring_at, memcpy_in.
        assert (Hq : pos / RING_BLOCK_SIZE = b
                     /\ pos mod RING_BLOCK_SIZE = o + d).
        { rewrite Hp, Hbd, Hom in *. clear Hrem Hnext Hn. consts. euclid. }
        destruct Hq as [-> ->].
        rewrite Z.eqb_refl.
        destruct (Z.leb_spec o (o + d)); [|lia].
        destruct (Z.ltb_spec (o + d) (o + cp)); [|lia].
        cbn [andb]. f_equal. lia.
      * (* [pos] is left to the rest of the loop *)
        assert (Hn : (pos - (i + cp) mod RING_TOTAL_CAPACITY)
                       mod RING_TOTAL_CAPACITY
                     = d - cp).
        { subst d. clear Hrem Hnext Hbd Hom. consts. euclid. }
        rewrite Hn.
        destruct (Z.ltb_spec (d - cp) (t - (f + cp))),
                 (Z.ltb_spec d (t - f)); try lia.
        -- f_equal. lia.
        -- unfold ring_at, memcpy_in.
           assert (Hq : ((pos / RING_BLOCK_SIZE =? b)
                         && (o <=? pos mod RING_BLOCK_SIZE)
                         && (pos mod RING_BLOCK_SIZE <? o + cp)) = false).
           { destruct (Z.eqb_spec (pos / RING_BLOCK_SIZE) b) as [Hb'|];
               [|reflexivity].
             destruct (Z.leb_spec o (pos mod RING_BLOCK_SIZE));
               [|reflexivity].
             destruct (Z.ltb_spec (pos mod RING_BLOCK_SIZE) (o + cp));
               [|reflexivity].
             exfalso. subst d. rewrite Hbd, Hom in *.
             clear Hrem Hnext Hn. consts. euclid. }
           rewrite Hq. reflexivity.
    + simpl.
      destruct (Z.ltb_spec ((pos - i) mod RING_TOTAL_CAPACITY) (t - f));
        [|reflexivity].
      assert (0 <= (pos - i) mod RING_TOTAL_CAPACITY)
        by (apply Z.mod_pos_bound; consts; lia).
      lia.
Qed.

(** ** The live window as a queue of bytes *)

(** Indices are ring positions, the live window is shorter than the ring
    and ends at the write index. *)
Definition ring_inv (s : stream_sys_t) : Prop :=
  0 <= i_read_index s < RING_TOTAL_CAPACITY /\
  0 <= i_write_index s < RING_TOTAL_CAPACITY /\
  0 <= i_buffer_size s < RING_TOTAL_CAPACITY /\
  (i_write_index s - i_read_index s) mod RING_TOTAL_CAPACITY = i_buffer_size s.

Ltac bool_facts :=
  repeat match goal with
  | E : (_ && _) = true |- _ =>
      let E1 := fresh E in apply andb_prop in E; destruct E as [E E1]
  | E : (_ <? _) = true |- _ => apply Z.ltb_lt in E
  | E : (_ <? _) = false |- _ => apply Z.ltb_ge in E
  | E : (_ <=? _) = true |- _ => apply Z.leb_le in E
  | E : (_ <=? _) = false |- _ => apply Z.leb_gt in E
  end.

Lemma step_ring_inv l c c' ev :
  step l c = Some (c', ev) -> ring_inv (sys c) -> ring_inv (sys c').
Proof.
  intros H (Hr & Hw & Hb & Hm). destruct c as [s so pp cp cn]; simpl in *.
  unfold ring_inv.
  step_inv H; arith_facts; bool_facts;
    try (repeat split; assumption);
    try (pose proof (mod_in_ring (i_seek_pos s));
         clear - Hr Hw Hb Hm H; consts; euclid);
    try (match goal with
         | H0 : 0 <= ?n -> ?z = ?n |- _ =>
             assert (z = n) by (apply H0; lia); subst z; clear H0
         end;
         consts; euclid);
    try discriminate;
    try (consts; euclid).
Qed.

Lemma reachable_ring_inv c : reachable c -> ring_inv (sys c).
Proof.
  induction 1 as [e c Ho|c l c' ev _ IH Hs].
  - apply Open_sys in Ho. destruct Ho as [-> _].
    unfold ring_inv; simpl. consts. repeat split; try lia.
  - eapply step_ring_inv; eauto.
Qed.

Lemma ring_after_app buf ev1 : forall m ev2,
  ring_after buf m (ev1 ++ ev2) = ring_after buf (ring_after buf m ev1) ev2.
Proof.
  induction ev1 as [|e ev1 IH]; intros m ev2; simpl; [reflexivity|].
  destruct e; apply IH.
Qed.

Lemma ring_after_memcpy_to_ring buf l : forall m,
  ring_after buf m (memcpy_to_ring l) = write_chunks buf m l.
Proof.
  unfold memcpy_to_ring, write_chunks.
  induction l as [|[[[b o] d] n] l IH]; intros m; simpl; [reflexivity|].
  apply IH.
Qed.

Lemma buffer_after_app m ev1 : forall dst ev2,
  buffer_after m dst (ev1 ++ ev2)
  = buffer_after m (buffer_after m dst ev1) ev2.
Proof.
  induction ev1 as [|e ev1 IH]; intros dst ev2; simpl; [reflexivity|].
  destruct e; apply IH.
Qed.

Lemma buffer_after_memcpy_from_ring m l : forall dst,
  buffer_after m dst (memcpy_from_ring true l) = read_chunks m dst l.
Proof.
  unfold memcpy_from_ring, read_chunks.
  induction l as [|[[[b o] d] n] l IH]; intros dst; simpl; [reflexivity|].
  apply IH.
Qed.

(** Projections of updated records. *)
Ltac fields :=
  cbn [i_stream_size b_can_fastseek b_can_seek b_error b_abort i_cache_index
       i_cache_size i_cache_offset i_buffer_size i_read_index i_write_index
       i_seek_pos b_seek_request i_stream_offset b_buffered_eos p_temp_peek
       i_temp_peek_capacity set_b_error set_b_abort set_cache
       set_i_buffer_size set_i_read_index set_i_write_index set_seek
       set_i_stream_offset set_b_buffered_eos set_temp_peek fst snd] in *.

(** What a write that goes through has checked and done. *)
Lemma WriteToBuffer_l_done s i_write r s' ev :
  0 < i_write ->
  WriteToBuffer_l s i_write = (Ready r, s', ev) ->
  0 <= r ->
  r = i_write /\
  (i_buffer_size s + i_write
   <= RING_TOTAL_CAPACITY - RING_BUFF_RW_GUARD_GAP - RING_BUFF_SEEK_GUARD_GAP
   \/ (b_seek_request s = true /\
       i_buffer_size s + i_write
       < RING_TOTAL_CAPACITY - RING_BUFF_RW_GUARD_GAP)) /\
  i_buffer_size s' = i_buffer_size s + i_write /\
  i_read_index s' = i_read_index s /\
  i_write_index s' = Z.rem (i_write_index s + i_write) RING_TOTAL_CAPACITY /\
  ev = memcpy_to_ring
         (snd (copy_loop (Z.to_nat i_write) i_write (i_write_index s) 0))
       ++ (if negb (b_seek_request s) then [Broadcast wakeup_read_cond]
           else []).
Proof.
  intros Hpos H Hr. unfold WriteToBuffer_l, WaitBufferForWrite_l in H.
  pose proof (copy_loop_all i_write (i_write_index s) ltac:(lia)) as Hc.
  destruct (copy_loop (Z.to_nat i_write) i_write (i_write_index s) 0)
    as [f l].
  cbn [fst snd] in *. subst f.
  fields.
  repeat (destr_match H; fields; try discriminate H);
    injection H as Hr' Hs' He'; subst; bool_facts; fields;
    try lia; repeat split; auto; try lia.
Qed.

(** What a read that goes through has done. *)
Lemma ReadFromBuffer_l_done s has_dst i_read r s' ev :
  0 <= i_buffer_size s ->
  ReadFromBuffer_l s has_dst i_read = (Ready r, s', ev) ->
  0 <= r ->
  0 < i_read ->
  r <= i_buffer_size s /\
  i_buffer_size s' = i_buffer_size s - r /\
  i_read_index s' = Z.rem (i_read_index s + r) RING_TOTAL_CAPACITY /\
  i_write_index s' = i_write_index s /\
  i_stream_offset s' = u64 (i_stream_offset s + r) /\
  ev = (if i_buffer_size s <=? 0 then []
        else memcpy_from_ring has_dst
               (snd (copy_loop (Z.to_nat r) r (i_read_index s) 0)))
       ++ [Broadcast wakeup_write_cond].
Proof.
  intros Hb H Hr Hpos.
  unfold ReadFromBuffer_l, PeekFromBuffer_l, WaitBufferForRead_l in H.
  fields.
  repeat (destr_match H; fields; try discriminate H);
    injection H as Hr' Hs' He'; subst; bool_facts; fields;
    repeat match goal with
    | E : copy_loop (Z.to_nat ?n) ?n ?i 0 = (?z, ?l) |- _ =>
        let G := fresh in
        assert (G : z = n /\ l = snd (copy_loop (Z.to_nat n) n i 0))
          by (pose proof (copy_loop_all n i ltac:(lia)) as G;
              rewrite E in *; cbn [fst snd] in *; auto);
        destruct G; subst z l; clear E
    end;
    try lia; fields; repeat split; auto; try lia.
Qed.

(** The [k]-th unread byte. *)
Definition live (m : ring_mem) (s : stream_sys_t) (k : Z) : Z :=
  ring_at m ((i_read_index s + k) mod RING_TOTAL_CAPACITY).

Lemma live_after_write s i_write r s' ev buf m k :
  ring_inv s ->
  0 < i_write ->
  WriteToBuffer_l s i_write = (Ready r, s', ev) ->
  0 <= r ->
  0 <= k < i_buffer_size s + i_write ->
  r = i_write /\
  i_buffer_size s' = i_buffer_size s + i_write /\
  live (ring_after buf m ev) s' k
  = if k <? i_buffer_size s then live m s k else buf (k - i_buffer_size s).
Proof.
  intros (Hr & Hw & Hb & Hm) Hpos H Hr0 Hk.
  destruct (WriteToBuffer_l_done _ _ _ _ _ Hpos H Hr0)
    as (-> & Hroom & Hbs & Hri & Hwi & ->).
  split; [reflexivity|]. split; [exact Hbs|].
  unfold live. rewrite Hri.
  rewrite ring_after_app, ring_after_memcpy_to_ring.
  assert (Htail : forall m0,
             ring_after buf m0
               (if negb (b_seek_request s)
                then [Broadcast wakeup_read_cond] else []) = m0)
    by (intros m0; destruct (negb (b_seek_request s)); reflexivity).
  rewrite Htail.
  assert (Hcap : i_buffer_size s + i_write <= RING_TOTAL_CAPACITY)
    by (destruct Hroom as [Hroom|[_ Hroom]]; consts; lia).
  rewrite copy_loop_writes;
    [ | lia | lia | lia | lia | apply Z.mod_pos_bound; consts; lia ].
  rewrite Z.sub_0_r, Z.add_0_l.
  destruct (Z.ltb_spec k (i_buffer_size s)) as [Hold|Hnew].
  - assert (Hd : ((i_read_index s + k) mod RING_TOTAL_CAPACITY
                  - i_write_index s) mod RING_TOTAL_CAPACITY
                 = k - i_buffer_size s + RING_TOTAL_CAPACITY).
    { clear Htail H. consts. euclid. }
    rewrite Hd.
    destruct (Z.ltb_spec (k - i_buffer_size s + RING_TOTAL_CAPACITY) i_write);
      [lia|reflexivity].
  - assert (Hd : ((i_read_index s + k) mod RING_TOTAL_CAPACITY
                  - i_write_index s) mod RING_TOTAL_CAPACITY
                 = k - i_buffer_size s).
    { clear Htail H. consts. euclid. }
    rewrite Hd.
    destruct (Z.ltb_spec (k - i_buffer_size s) i_write); [reflexivity|lia].
Qed.

Lemma buffer_after_read s i_read r s' ev m dst k :
  ring_inv s ->
  0 < i_read ->
  ReadFromBuffer_l s true i_read = (Ready r, s', ev) ->
  0 <= r ->
  r <= i_buffer_size s /\
  i_buffer_size s' = i_buffer_size s - r /\
  buffer_after m dst ev k
  = (if (0 <=? k) && (k <? r) then live m s k else dst k) /\
  live m s' k = live m s (k + r).
Proof.
  intros (Hr & Hw & Hb & Hm) Hpos H Hr0.
  destruct (ReadFromBuffer_l_done _ _ _ _ _ _ (proj1 Hb) H Hr0 Hpos)
    as (Hle & Hbs & Hri & Hwi & Hso & ->).
  split; [exact Hle|]. split; [exact Hbs|]. split.
  - rewrite buffer_after_app. cbn [buffer_after].
    destruct (Z.leb_spec (i_buffer_size s) 0).
    + cbn [buffer_after].
      destruct (Z.leb_spec 0 k), (Z.ltb_spec k r); cbn [andb];
        try reflexivity; lia.
    + rewrite buffer_after_memcpy_from_ring.
      rewrite copy_loop_reads; [ | lia | lia | lia ].
      rewrite Z.sub_0_r. reflexivity.
  - unfold live. rewrite Hri. f_equal.
    clear H Hso. consts. euclid.
Qed.

(** With enough unread bytes and no seek pending the wait loop is not
    entered. *)
Lemma PeekFromBuffer_l_enough s has_dst i_read :
  0 < i_read ->
  b_seek_request s = false ->
  i_read <= i_buffer_size s ->
  PeekFromBuffer_l s has_dst i_read
  = (Ready i_read,
     memcpy_from_ring has_dst
       (snd (copy_loop (Z.to_nat i_read) i_read (i_read_index s) 0))).
Proof.
  intros Hpos Hseek Hle. unfold PeekFromBuffer_l, WaitBufferForRead_l.
  assert (E1 : (i_read <=? 0) = false) by (apply Z.leb_gt; lia).
  assert (E2 : (i_buffer_size s <? i_read) = false) by (apply Z.ltb_ge; lia).
  assert (E3 : (i_read <? 0) = false) by (apply Z.ltb_ge; lia).
  assert (E4 : (i_buffer_size s <=? 0) = false) by (apply Z.leb_gt; lia).
  rewrite E1, Hseek, E2. cbn [orb]. rewrite E3, E4, E2.
  pose proof (copy_loop_all i_read (i_read_index s) ltac:(lia)) as Hc.
  destruct (copy_loop (Z.to_nat i_read) i_read (i_read_index s) 0) as [f l].
  cbn [fst snd] in *. subst f. reflexivity.
Qed.


(** X1.  A write that goes through appends its bytes to the live window:
    it stores all [i_write] bytes, the bytes that were unread stay what they
    were, and the new bytes follow them in order. *)
Theorem write_appends_to_live_window s i_write r s' ev buf m k :
  ring_inv s ->
  0 < i_write ->
  WriteToBuffer_l s i_write = (Ready r, s', ev) ->
  0 <= r ->
  0 <= k < i_buffer_size s + i_write ->
  r = i_write /\
  i_buffer_size s' = i_buffer_size s + i_write /\
  live (ring_after buf m ev) s' k
  = if k <? i_buffer_size s then live m s k else buf (k - i_buffer_size s).
Proof. apply live_after_write. Qed.

(** X2.  A read that goes through takes its bytes from the front of the
    live window: the caller's buffer receives the first [r] unread bytes in
    order and is untouched elsewhere, and what was the [(k + r)]-th unread
    byte becomes the [k]-th. *)
Theorem read_takes_from_live_window s i_read r s' ev m dst k :
  ring_inv s ->
  0 < i_read ->
  ReadFromBuffer_l s true i_read = (Ready r, s', ev) ->
  0 <= r ->
  r <= i_buffer_size s /\
  i_buffer_size s' = i_buffer_size s - r /\
  buffer_after m dst ev k
  = (if (0 <=? k) && (k <? r) then live m s k else dst k) /\
  live m s' k = live m s (k + r).
Proof. apply buffer_after_read. Qed.

(** X3.  Round trip.  In a state with an empty live window and no seek
    pending, a block that is written and then read back in full arrives in
    the caller's buffer byte for byte. *)
Theorem write_then_read_round_trip s n r1 s1 ev1 r2 s2 ev2 buf m dst k :
  ring_inv s ->
  i_buffer_size s = 0 ->
  b_seek_request s = false ->
  0 < n ->
  WriteToBuffer_l s n = (Ready r1, s1, ev1) ->
  0 <= r1 ->
  ReadFromBuffer_l s1 true n = (Ready r2, s2, ev2) ->
  0 <= k < n ->
  r2 = n /\
  i_buffer_size s2 = 0 /\
  buffer_after (ring_after buf m ev1) dst ev2 k = buf k.
Proof.
  intros Hinv Hb0 Hseek Hn Hw Hr1 Hrd Hk.
  pose proof Hinv as (Hr & Hwi & Hb & Hm).
  destruct (WriteToBuffer_l_done _ _ _ _ _ Hn Hw Hr1)
    as (-> & Hroom & Hbs1 & Hri1 & Hwi1 & Hev1).
  assert (Hinv1 : ring_inv s1).
  { unfold ring_inv. rewrite Hbs1, Hri1, Hwi1.
    destruct Hroom as [Hroom|[Hc _]]; [|congruence].
    clear Hw Hrd Hev1. consts. euclid. }
  assert (Hseek1 : b_seek_request s1 = false).
  { unfold WriteToBuffer_l in Hw.
    destruct (WaitBufferForWrite_l s n) as [[i_buffer|] e0];
      [|discriminate Hw].
    destruct (i_buffer <? 0); [injection Hw as _ <- _; exact Hseek|].
    destruct (copy_loop _ _ _ _) as [f l]. fields.
    destruct (RING_TOTAL_CAPACITY <? i_cache_size s + f);
      injection Hw as _ <- _; exact Hseek. }
  assert (Hr2 : r2 = n).
  { unfold ReadFromBuffer_l in Hrd.
    rewrite (PeekFromBuffer_l_enough s1 true n Hn Hseek1 ltac:(lia)) in Hrd.
    destruct (Z.ltb_spec n 0); [lia|].
    injection Hrd as <- _ _. reflexivity. }
  subst r2.
  destruct (buffer_after_read s1 n n s2 ev2
              (ring_after buf m ev1) dst k Hinv1 Hn Hrd ltac:(lia))
    as (_ & Hbs2 & Hbuf & _).
  split; [reflexivity|]. split; [lia|].
  rewrite Hbuf.
  destruct (Z.leb_spec 0 k), (Z.ltb_spec k n); cbn [andb]; try lia.
  destruct (live_after_write s n n s1 ev1 buf m k
              Hinv Hn Hw ltac:(lia) ltac:(lia)) as (_ & _ & Hlive).
  rewrite Hlive, Hb0.
  destruct (Z.ltb_spec k 0); [lia|]. f_equal. lia.
Qed.

(** ** Memory safety on the side of the ring *)

Definition event_in_ring (e : event) : Prop :=
  match e with
  | MemcpyFromRing b o d n | MemcpyToRing b o d n => chunk_in_block (b, o, d, n)
  | _ => True
  end.

Lemma copy_loop_in_blocks n i :
  0 <= i < RING_TOTAL_CAPACITY ->
  Forall chunk_in_block (snd (copy_loop (Z.to_nat n) n i 0)).
Proof.
  intros Hi. destruct (Z.le_gt_cases 0 n) as [Hn|Hn].
  - apply copy_loop_chunks; lia.
  - replace (Z.to_nat n) with O by lia. constructor.
Qed.

Lemma memcpy_from_ring_in_ring d l :
  Forall chunk_in_block l -> Forall event_in_ring (memcpy_from_ring d l).
Proof.
  intros H. unfold memcpy_from_ring. destruct d; [|constructor].
  induction H as [|[[[b o] f] n] l Hc _ IH]; simpl; constructor; auto.
Qed.

Lemma memcpy_to_ring_in_ring l :
  Forall chunk_in_block l -> Forall event_in_ring (memcpy_to_ring l).
Proof.
  intros H. unfold memcpy_to_ring.
  induction H as [|[[[b o] f] n] l Hc _ IH]; simpl; constructor; auto.
Qed.

(** X4.  Whatever the two threads do, every [memcpy] on the ring stays
    inside one of the [RING_BLOCK_COUNT] allocated blocks: its block number
    is in range, it copies at least one byte and it does not run past the
    end of the block. *)
Theorem ring_accesses_stay_in_blocks c l c' ev :
  reachable c ->
  step l c = Some (c', ev) ->
  Forall event_in_ring ev.
Proof.
  intros Hreach H.
  destruct (reachable_ring_inv c Hreach) as (Hr & Hw & _).
  destruct c as [s so pp cp cn]; simpl in *.
  step_inv H;
    repeat match goal with
    | E : copy_loop (Z.to_nat ?n) ?n ?i 0 = (_, ?l) |- _ =>
        let G := fresh in
        assert (G : Forall chunk_in_block l)
          by (pose proof (copy_loop_in_blocks n i ltac:(assumption)) as G;
              rewrite E in G; exact G);
        clear E
    end;
    repeat first
      [ apply Forall_app; split
      | apply memcpy_from_ring_in_ring; assumption
      | apply memcpy_to_ring_in_ring; assumption
      | apply Forall_nil
      | apply Forall_cons; [exact I|] ].
Qed.

(** ** The window the cache really keeps *)

Lemma step_cache_size l c c' ev :
  step l c = Some (c', ev) ->
  0 <= i_cache_size (sys c)
  <= RING_TOTAL_CAPACITY + RING_BUFF_RW_GUARD_GAP + RING_BUFF_SEEK_GUARD_GAP ->
  0 <= i_cache_size (sys c')
  <= RING_TOTAL_CAPACITY + RING_BUFF_RW_GUARD_GAP + RING_BUFF_SEEK_GUARD_GAP.
Proof.
  intros H Hc. destruct c as [s so pp cp cn]; simpl in *.
  step_inv H; arith_facts; bool_facts; try assumption;
    try (consts; lia).
Qed.

(** X5.  In every reachable state [i_cache_size] lies between 0 and
    [RING_TOTAL_CAPACITY + RING_BUFF_RW_GUARD_GAP + RING_BUFF_SEEK_GUARD_GAP],
    and a write that slides the cache window leaves it at exactly that upper
    value. *)
Theorem cache_size_bound c :
  reachable c ->
  0 <= i_cache_size (sys c)
  <= RING_TOTAL_CAPACITY + RING_BUFF_RW_GUARD_GAP + RING_BUFF_SEEK_GUARD_GAP /\
  forall i_write r s' ev,
    0 < i_write ->
    WriteToBuffer_l (sys c) i_write = (Ready r, s', ev) ->
    0 <= r ->
    RING_TOTAL_CAPACITY < i_cache_size (sys c) + i_write ->
    i_cache_size s'
    = RING_TOTAL_CAPACITY + RING_BUFF_RW_GUARD_GAP + RING_BUFF_SEEK_GUARD_GAP.
Proof.
  intros Hreach. split.
  - induction Hreach as [e c Ho|c l c' ev _ IH Hs].
    + apply Open_sys in Ho. destruct Ho as [-> _]. simpl. consts. lia.
    + eapply step_cache_size; eauto.
  - intros i_write r s' ev Hpos H Hr Hover.
    eapply WriteToBuffer_l_slide; eauto.
Qed.

(** ** The guard gap of the producer *)

(** X6.  A write of [i_write > 0] bytes that goes through was let in with
    [i_buffer_size + i_write] at most
    [RING_TOTAL_CAPACITY - RING_BUFF_RW_GUARD_GAP - RING_BUFF_SEEK_GUARD_GAP],
    or, with a seek pending, strictly below
    [RING_TOTAL_CAPACITY - RING_BUFF_RW_GUARD_GAP].  So the assertion
    [i_write <= RING_TOTAL_CAPACITY - i_buffer_size] of the source holds, and
    after the write more than [RING_BUFF_RW_GUARD_GAP] bytes of the ring are
    still free. *)
Theorem write_keeps_guard_gap s i_write r s' ev :
  0 < i_write ->
  WriteToBuffer_l s i_write = (Ready r, s', ev) ->
  0 <= r ->
  r = i_write /\
  i_write <= RING_TOTAL_CAPACITY - i_buffer_size s /\
  i_buffer_size s' = i_buffer_size s + i_write /\
  RING_BUFF_RW_GUARD_GAP < RING_TOTAL_CAPACITY - i_buffer_size s' /\
  (b_seek_request s = false ->
   RING_BUFF_RW_GUARD_GAP + RING_BUFF_SEEK_GUARD_GAP
   <= RING_TOTAL_CAPACITY - i_buffer_size s').
Proof.
  intros Hpos H Hr.
  destruct (WriteToBuffer_l_done _ _ _ _ _ Hpos H Hr)
    as (-> & Hroom & Hbs & _).
  rewrite Hbs.
  split; [reflexivity|].
  split; [|split; [reflexivity|split; [|intros Hseek]]];
    destruct Hroom as [Hroom|[Hc Hroom]]; try congruence; consts; lia.
Qed.

(** ** What a read returns *)

(** X7.  With no seek pending, a read of [i_read > 0] bytes has exactly four
    outcomes.  If [i_read] bytes are buffered it returns [i_read], whatever
    the abort, error and end-of-stream flags say.  Otherwise it returns -1
    when abort or error is set, the [i_buffer_size] bytes that are left when
    only end-of-stream is set, and waits when no flag is set; in the -1 and
    in the waiting case the state is not touched. *)
Theorem read_without_pending_seek s has_dst i_read :
  0 < i_read ->
  b_seek_request s = false ->
  0 <= i_buffer_size s ->
  (i_read <= i_buffer_size s ->
   fst (fst (ReadFromBuffer_l s has_dst i_read)) = Ready i_read) /\
  (i_buffer_size s < i_read ->
   b_abort s = true \/ b_error s = true ->
   ReadFromBuffer_l s has_dst i_read = (Ready (-1), s, [])) /\
  (i_buffer_size s < i_read ->
   b_abort s = false -> b_error s = false -> b_buffered_eos s = true ->
   fst (fst (ReadFromBuffer_l s has_dst i_read)) = Ready (i_buffer_size s)) /\
  (i_buffer_size s < i_read ->
   b_abort s = false -> b_error s = false -> b_buffered_eos s = false ->
   ReadFromBuffer_l s has_dst i_read
   = (Wait, s, [Broadcast wakeup_write_cond; TimedWait wakeup_read_cond])).
Proof.
  intros Hpos Hseek Hb.
  assert (E1 : (i_read <=? 0) = false) by (apply Z.leb_gt; lia).
  split; [|split; [|split]].
  - intros Hle. unfold ReadFromBuffer_l.
    rewrite (PeekFromBuffer_l_enough s has_dst i_read Hpos Hseek Hle).
    destruct (Z.ltb_spec i_read 0); [lia|]. reflexivity.
  - intros Hlt Hflag.
    assert (E2 : (i_buffer_size s <? i_read) = true) by (apply Z.ltb_lt; lia).
    unfold ReadFromBuffer_l, PeekFromBuffer_l, WaitBufferForRead_l.
    rewrite E1, Hseek, E2. cbn [orb].
    destruct Hflag as [-> | ->]; [reflexivity|].
    destruct (b_abort s); reflexivity.
  - intros Hlt Hab Herr Heos.
    assert (E2 : (i_buffer_size s <? i_read) = true) by (apply Z.ltb_lt; lia).
    assert (E3 : (i_buffer_size s <? 0) = false) by (apply Z.ltb_ge; lia).
    unfold ReadFromBuffer_l, PeekFromBuffer_l, WaitBufferForRead_l.
    rewrite E1, Hseek, E2, Hab, Herr, Heos. cbn [orb]. rewrite E3.
    destruct (Z.leb_spec (i_buffer_size s) 0).
    + rewrite E3. reflexivity.
    + rewrite Z.ltb_irrefl.
      pose proof (copy_loop_all (i_buffer_size s) (i_read_index s) Hb) as Hc.
      destruct (copy_loop _ _ _ _) as [f l]. cbn [fst] in Hc. subst f.
      rewrite E3. reflexivity.
  - intros Hlt Hab Herr Heos.
    assert (E2 : (i_buffer_size s <? i_read) = true) by (apply Z.ltb_lt; lia).
    unfold ReadFromBuffer_l, PeekFromBuffer_l, WaitBufferForRead_l.
    rewrite E1, Hseek, E2, Hab, Herr, Heos. reflexivity.
Qed.

(** X8.  A read or peek issued behind a pending seek at end of stream is
    not bounded by the request: when more than [i_read] bytes are buffered,
    it returns [i_buffer_size] and the [memcpy] calls into the caller's
    buffer add up to [i_buffer_size] bytes, more than the [i_read] bytes
    the caller provided. *)
Theorem read_behind_seek_at_eos_exceeds_request s i_read :
  ring_inv s ->
  0 < i_read < i_buffer_size s ->
  b_seek_request s = true ->
  b_buffered_eos s = true ->
  b_abort s = false ->
  b_error s = false ->
  exists l,
    PeekFromBuffer_l s true i_read
    = (Ready (i_buffer_size s), memcpy_from_ring true l) /\
    total_length l = i_buffer_size s /\
    i_read < total_length l /\
    fst (fst (ReadFromBuffer_l s true i_read)) = Ready (i_buffer_size s).
Proof.
  intros (Hr & _ & Hb & _) Hn Hseek Heos Hab Herr.
  assert (E1 : (i_read <=? 0) = false) by (apply Z.leb_gt; lia).
  assert (E3 : (i_buffer_size s <? 0) = false) by (apply Z.ltb_ge; lia).
  assert (E4 : (i_buffer_size s <=? 0) = false) by (apply Z.leb_gt; lia).
  exists (snd (copy_loop (Z.to_nat (i_buffer_size s)) (i_buffer_size s)
                 (i_read_index s) 0)).
  assert (Hp : PeekFromBuffer_l s true i_read
               = (Ready (i_buffer_size s),
                  memcpy_from_ring true
                    (snd (copy_loop (Z.to_nat (i_buffer_size s))
                            (i_buffer_size s) (i_read_index s) 0)))).
  { unfold PeekFromBuffer_l, WaitBufferForRead_l.
    rewrite E1, Hseek, Hab, Herr, Heos. cbn [orb].
    rewrite E3, E4, Z.ltb_irrefl.
    pose proof (copy_loop_all (i_buffer_size s) (i_read_index s)
                  ltac:(lia)) as Hc.
    destruct (copy_loop _ _ _ _) as [f l]. cbn [fst snd] in *. subst f.
    reflexivity. }
  destruct (copy_loop_chunks (Z.to_nat (i_buffer_size s)) (i_buffer_size s)
              (i_read_index s) 0 Hr ltac:(lia) ltac:(lia)) as [_ Hlen].
  rewrite Z.sub_0_r in Hlen.
  split; [exact Hp|]. split; [exact Hlen|]. split; [lia|].
  unfold ReadFromBuffer_l. rewrite Hp, E3. reflexivity.
Qed.

(** X9.  Degenerate requests never wait.  A [Read] of 0 bytes returns 0
    and only wakes the producer; a [Read] whose unsigned length does not fit
    in [int] returns the negative converted length and touches nothing; the
    locked part of a [Peek] of 0 bytes returns 0 without copying, and its
    first part does not call [realloc] when the recorded capacity is 0. *)
Theorem degenerate_requests s has_dst :
  (exists s',
      Read s has_dst 0 = (Ready 0, s', [Broadcast wakeup_write_cond]) /\
      i_buffer_size s' = i_buffer_size s /\
      b_seek_request s' = b_seek_request s /\
      i_seek_pos s' = i_seek_pos s) /\
  (forall i_read,
      2 ^ 31 <= i_read < 2 ^ 32 ->
      Read s has_dst i_read = (Ready (i_read - 2 ^ 32), s, [])) /\
  Peek_locked s has_dst 0 = (Ready 0, []) /\
  (i_temp_peek_capacity s = 0 ->
   forall ok, Peek_grow s 0 ok = (Some (s, p_temp_peek s), [])).
Proof.
  split; [|split; [|split]].
  - unfold Read, ReadFromBuffer_l, PeekFromBuffer_l, WaitBufferForRead_l.
    change (int_of_uint 0) with 0. cbn [Z.leb Z.compare Z.ltb].
    destruct (Z.leb_spec (i_buffer_size s) 0).
    + eexists. split; [reflexivity|]. fields. repeat split; lia.
    + destruct (Z.ltb_spec (i_buffer_size s) 0); [lia|].
      cbn [Z.to_nat copy_loop]. destruct has_dst;
        eexists; (split; [reflexivity|]); fields; repeat split; lia.
  - intros i_read Hrange.
    unfold Read, ReadFromBuffer_l, PeekFromBuffer_l, WaitBufferForRead_l,
      int_of_uint.
    destruct (Z.ltb_spec i_read (2 ^ 31)); [lia|].
    destruct (Z.leb_spec (i_read - 2 ^ 32) 0); [|lia].
    destruct (Z.ltb_spec (i_read - 2 ^ 32) 0); [|lia].
    destruct (Z.ltb_spec (i_read - 2 ^ 32) 0); [|lia].
    reflexivity.
  - unfold Peek_locked, PeekFromBuffer_l, WaitBufferForRead_l.
    change (int_of_uint 0) with 0. cbn [Z.leb Z.compare Z.ltb].
    destruct (Z.leb_spec (i_buffer_size s) 0); [reflexivity|].
    destruct (Z.ltb_spec (i_buffer_size s) 0); [lia|].
    cbn [Z.to_nat copy_loop]. destruct has_dst; reflexivity.
  - intros Hcap ok. unfold Peek_grow. rewrite Hcap. reflexivity.
Qed.

(** ** Peek *)

(** X10.  When [realloc] fails, [Peek] returns [VLC_ENOMEM] at once: the
    shared state and both threads are left exactly as they were, the ring is
    not read and nobody is woken. *)
Theorem peek_out_of_memory c i_peek c' ev :
  reachable c ->
  0 < i_peek ->
  step (L_peek i_peek false) c = Some (c', ev) ->
  c' = c /\ ev = [Realloc i_peek false; PeekReturns VLC_ENOMEM].
Proof.
  intros Hreach Hpos H.
  pose proof (reachable_capacity c Hreach) as Hcap.
  destruct c as [s so pp cp cn]; simpl in *.
  unfold step in H; simpl in H.
  destruct cp; try discriminate H.
  destruct (is_uint i_peek); [|discriminate H].
  unfold Peek_grow in H. rewrite Hcap in H.
  destruct (Z.ltb_spec 0 i_peek); [|lia].
  injection H as <- <-. auto.
Qed.

(** X11.  [Peek] does not consume.  A [Peek] that completes changes nothing
    in the shared state but the scratch pointer, and a [Read] of the same
    length issued right after it returns the same count and copies the same
    pieces of the ring. *)
Theorem peek_then_read_agree c i_peek c1 ev1 r :
  reachable c ->
  0 < i_peek ->
  step (L_peek i_peek true) c = Some (c1, ev1) ->
  In (PeekReturns (Ret_int r)) ev1 ->
  sys c1 = set_temp_peek (Some i_peek) 0 (sys c) /\
  cpc c1 = C_Idle /\
  exists pieces,
    ev1 = [Realloc i_peek true] ++ pieces ++ [PeekReturns (Ret_int r)] /\
    forall c2 ev2,
      step (L_read true i_peek) c1 = Some (c2, ev2) ->
      ev2 = pieces
            ++ (if r <? 0 then [] else [Broadcast wakeup_write_cond])
            ++ [ReadReturns r].
Proof.
  intros Hreach Hpos H Hin.
  pose proof (reachable_capacity c Hreach) as Hcap.
  destruct c as [s so pp cp cn]; simpl in *.
  unfold step in H; simpl in H.
  destruct cp; try discriminate H.
  destruct (is_uint i_peek) eqn:Hu; [|discriminate H].
  unfold Peek_grow in H. rewrite Hcap in H.
  destruct (Z.ltb_spec 0 i_peek); [|lia].
  unfold finish_peek, Peek_locked, consumer_goto in H. simpl in H.
  assert (Hsame : forall n,
             PeekFromBuffer_l (set_temp_peek (Some i_peek) 0 s) true n
             = PeekFromBuffer_l s true n) by reflexivity.
  rewrite Hsame in H.
  destruct (PeekFromBuffer_l s true (int_of_uint i_peek)) as [[r0|] e0] eqn:Hp.
  - injection H as <- <-. simpl in Hin.
    destruct Hin as [Hin|Hin]; [discriminate Hin|].
    apply in_app_or in Hin. destruct Hin as [Hin|[Hin|[]]].
    + exfalso. unfold PeekFromBuffer_l, WaitBufferForRead_l in Hp.
      repeat (destr_match Hp; try discriminate Hp);
        injection Hp as _ <-; simpl in Hin;
        try contradiction;
        repeat (apply in_app_or in Hin; destruct Hin as [Hin|Hin]);
        simpl in Hin; try contradiction;
        unfold memcpy_from_ring in Hin; apply in_map_iff in Hin;
        destruct Hin as ([[[b o] d] n] & Hin & _); discriminate Hin.
    + injection Hin as ->. simpl.
      split; [reflexivity|]. split; [reflexivity|].
      exists e0. split; [reflexivity|].
      intros c2 ev2 H2. unfold step in H2; simpl in H2. rewrite Hu in H2.
      unfold finish_read, Read, ReadFromBuffer_l in H2. simpl in H2.
      rewrite Hsame, Hp in H2.
      destruct (r <? 0); injection H2 as _ <-;
        rewrite <- ?app_assoc; reflexivity.
  - injection H as <- <-. simpl in Hin.
    destruct Hin as [Hin|Hin]; [discriminate Hin|].
    exfalso. unfold PeekFromBuffer_l, WaitBufferForRead_l in Hp.
    repeat (destr_match Hp; try discriminate Hp);
      injection Hp as <-; simpl in Hin;
      repeat (destruct Hin as [Hin|Hin]; try discriminate Hin);
      try contradiction.
Qed.

(** ** What the size query sees *)

(** X12.  [STREAM_GET_CACHED_SIZE] reports the end of the live window,
    [i_stream_offset + i_buffer_size]; a read that goes through moves the
    window's start and leaves that answer unchanged. *)
Theorem cached_size_unchanged_by_read s has_dst i_read r s' ev :
  0 <= i_buffer_size s ->
  0 < i_read ->
  ReadFromBuffer_l s has_dst i_read = (Ready r, s', ev) ->
  0 <= r ->
  Control s' STREAM_GET_CACHED_SIZE
  = (s', VLC_SUCCESS,
     Some (Ret_u64 (u64 (i_stream_offset s + i_buffer_size s))), []).
Proof.
  intros Hb Hpos H Hr.
  destruct (ReadFromBuffer_l_done _ _ _ _ _ _ Hb H Hr Hpos)
    as (_ & Hbs & _ & _ & Hso & _).
  unfold Control. rewrite Hbs, Hso, u64_add_l.
  replace (i_stream_offset s + r + (i_buffer_size s - r))
    with (i_stream_offset s + i_buffer_size s) by lia.
  reflexivity.
Qed.

(** ** Flags and shutdown *)

(** X13.  No step of either thread clears [b_error] or [b_abort], and none
    changes what [Open] recorded about the source: its size and whether it
    can seek. *)
Theorem flags_are_never_cleared l c c' ev :
  step l c = Some (c', ev) ->
  (b_error (sys c) = true -> b_error (sys c') = true) /\
  (b_abort (sys c) = true -> b_abort (sys c') = true) /\
  i_stream_size (sys c') = i_stream_size (sys c) /\
  b_can_seek (sys c') = b_can_seek (sys c) /\
  b_can_fastseek (sys c') = b_can_fastseek (sys c).
Proof.
  intros H. destruct c as [s so pp cp cn]; simpl in *.
  step_inv H; repeat split; auto; intros; congruence.
Qed.

(** The number of producer steps that are left at most once the producer is
    told to stop. *)
Definition steps_to_exit (pc : producer_pc) : nat :=
  match pc with
  | P_SeekCheck => 7
  | P_SourceSeek => 6
  | P_Commit _ => 5
  | P_ReadSrc => 4
  | P_Write _ => 3
  | P_Head => 2
  | P_Park => 2
  | P_Exit => 1
  | P_Done => 0
  end.

Definition stopping (s : stream_sys_t) : Prop :=
  b_abort s = true \/ b_error s = true.

(** X14.  Once abort or error is set, nothing waits any more.  Every step
    of the producer brings it strictly closer to the end of its thread
    function (at most 7 steps are left), no other step moves it away from
    it, and every [Read] or [Peek], new or woken up, returns to its
    caller. *)
Theorem shutdown_is_prompt l c c' ev :
  stopping (sys c) ->
  step l c = Some (c', ev) ->
  stopping (sys c') /\
  match l with
  | L_producer _ => (steps_to_exit (ppc c') < steps_to_exit (ppc c))%nat
  | _ => (steps_to_exit (ppc c') <= steps_to_exit (ppc c))%nat
  end /\
  match l with
  | L_read _ _ | L_peek _ _ | L_wake => cpc c' = C_Idle
  | _ => True
  end.
Proof.
  intros Hstop H. destruct c as [s so pp cp cn]; simpl in *.
  unfold stopping in *.
  step_inv H;
    repeat match goal with
    | E : ?b = false, F : ?b = true \/ _ |- _ =>
        destruct F as [F|F]; [congruence|]
    | E : ?b = false, F : _ \/ ?b = true |- _ =>
        destruct F as [F|F]; [|congruence]
    end;
    try congruence;
    try (destruct Hstop; simpl in *; congruence);
    (split; [tauto|]); (split; [|exact I || reflexivity]);
    try lia; try (destruct pp; simpl; lia);
    try (exfalso; destruct Hstop as [Hs|Hs]; rewrite Hs in *; simpl in *;
         rewrite ?andb_false_r, ?orb_true_r in *; discriminate).
Qed.

(** ** Seeks *)

(** While the producer is between the classification of a seek and the end
    of its resolution, the request is still posted. *)
Definition resolving_implies_pending (c : config) : Prop :=
  not_resolving (ppc c) = false -> b_seek_request (sys c) = true.

Lemma step_resolving l c c' ev :
  step l c = Some (c', ev) ->
  resolving_implies_pending c -> resolving_implies_pending c'.
Proof.
  intros H Hinv. destruct c as [s so pp cp cn].
  unfold resolving_implies_pending in *. simpl in *.
  step_inv H; intros Hn; simpl in Hn; try discriminate Hn; auto;
    specialize (Hinv Hn); congruence.
Qed.

Lemma reachable_resolving c :
  reachable c -> resolving_implies_pending c.
Proof.
  induction 1 as [e c Ho|c l c' ev _ IH Hs].
  - apply Open_sys in Ho. destruct Ho as (_ & Hp & _).
    unfold resolving_implies_pending. rewrite Hp. discriminate.
  - eapply step_resolving; eauto.
Qed.

(** X15.  The producer only ever calls [stream_Seek] or runs the block that
    ends a resolution for a request that is still posted: in every
    reachable state in which it stands at one of these two places,
    [b_seek_request] is set. *)
Theorem producer_resolves_only_posted_seeks c :
  reachable c ->
  (ppc c = P_SourceSeek \/ exists b, ppc c = P_Commit b) ->
  b_seek_request (sys c) = true.
Proof.
  intros Hreach Hpc. apply (reachable_resolving c Hreach).
  destruct Hpc as [-> | [b ->]]; reflexivity.
Qed.

Lemma step_after_failed_seek l c c' ev :
  step l c = Some (c', ev) ->
  b_error (sys c) = true ->
  producer_left_loop (ppc c) ->
  b_seek_request (sys c) = true ->
  b_seek_request (sys c') = true.
Proof.
  intros H He Hpc Hseek. destruct c as [s so pp cp cn]; simpl in *.
  unfold producer_left_loop in *.
  destruct Hpc as [-> | ->]; step_inv H; auto; congruence.
Qed.

Lemma run_after_failed_seek ls : forall c c' ev,
  run ls c = Some (c', ev) ->
  b_error (sys c) = true ->
  producer_left_loop (ppc c) ->
  b_seek_request (sys c) = true ->
  b_error (sys c') = true /\ producer_left_loop (ppc c') /\ quiet ev /\
  b_seek_request (sys c') = true.
Proof.
  induction ls as [|l ls IH]; intros c c' ev H He Hpc Hseek; simpl in H.
  - inversion H; subst. repeat split; auto. constructor.
  - destruct (step l c) as [[c1 e1]|] eqn:E; [|discriminate].
    destruct (run ls c1) as [[c2 e2]|] eqn:E2; [|discriminate].
    inversion H; subst.
    destruct (step_after_exit _ _ _ _ E He Hpc) as (He1 & Hpc1 & Hq1).
    pose proof (step_after_failed_seek _ _ _ _ E He Hpc Hseek) as Hs1.
    destruct (IH _ _ _ E2 He1 Hpc1 Hs1) as (He2 & Hpc2 & Hq2 & Hs2).
    repeat split; auto. now apply quiet_app.
Qed.

(** X16.  When [stream_Seek] of a long seek returns a negative value the
    producer sets [b_error] and leaves its loop with the request still
    posted.  From then on the request stays posted, the source is never
    called again, and every [Read] or [Peek] of [i_read > 0] bytes returns
    -1 at once, however many bytes are buffered. *)
Theorem source_seek_failure_is_terminal c reply c1 ev1 :
  reachable c ->
  ppc c = P_SourceSeek ->
  reply < 0 ->
  step (L_producer reply) c = Some (c1, ev1) ->
  b_error (sys c1) = true /\
  ppc c1 = P_Exit /\
  ev1 = [SourceSeek (i_seek_pos (sys c)) reply] /\
  forall ls c2 ev2,
    run ls c1 = Some (c2, ev2) ->
    b_error (sys c2) = true /\
    b_seek_request (sys c2) = true /\
    producer_left_loop (ppc c2) /\
    quiet ev2 /\
    forall has_dst i_read,
      0 < i_read ->
      PeekFromBuffer_l (sys c2) has_dst i_read = (Ready (-1), []) /\
      ReadFromBuffer_l (sys c2) has_dst i_read = (Ready (-1), sys c2, []).
Proof.
  intros Hreach Hpc Hneg Hs.
  assert (Hseek : b_seek_request (sys c) = true).
  { apply (reachable_resolving c Hreach). rewrite Hpc. reflexivity. }
  assert (H1 : b_error (sys c1) = true /\ ppc c1 = P_Exit /\
               ev1 = [SourceSeek (i_seek_pos (sys c)) reply] /\
               b_seek_request (sys c1) = true).
  { destruct c as [s so pp cp cn]; simpl in *. subst pp.
    unfold step, BufferThread in Hs; simpl in Hs.
    destruct (Z.ltb_spec reply 0); [|lia].
    destruct cp; try discriminate Hs; inversion Hs; subst; simpl; auto. }
  destruct H1 as (He1 & Hp1 & Hev1 & Hs1).
  repeat (split; [assumption|]).
  intros ls c2 ev2 Hrun.
  destruct (run_after_failed_seek ls c1 c2 ev2 Hrun He1 (or_introl Hp1) Hs1)
    as (He2 & Hp2 & Hq2 & Hs2).
  repeat (split; [assumption|]).
  intros has_dst i_read Hpos.
  pose proof (wait_for_read_interrupted _ _ Hpos He2 (or_introl Hs2)) as Hw.
  assert (Hpeek : PeekFromBuffer_l (sys c2) has_dst i_read = (Ready (-1), [])).
  { unfold PeekFromBuffer_l. rewrite Hw. reflexivity. }
  split; [exact Hpeek|].
  unfold ReadFromBuffer_l. rewrite Hpeek. reflexivity.
Qed.

(** X17.  Resolution of a long seek.  When the producer finds a pending
    seek that it classifies as long and the source accepts the seek, the
    three steps of the resolution call the source exactly once
    ([stream_Seek] to [i_seek_pos]), empty the ring with both indices at
    [i_seek_pos mod RING_TOTAL_CAPACITY], restart the cache window as the
    empty window at [i_seek_pos], set [i_stream_offset] to [i_seek_pos] and
    clear the request. *)
Theorem long_seek_resolution c r1 c1 ev1 r2 c2 ev2 r3 c3 ev3 :
  ppc c = P_SeekCheck ->
  b_seek_request (sys c) = true ->
  classify_seek (sys c) = LongSeek ->
  0 <= r2 ->
  step (L_producer r1) c = Some (c1, ev1) ->
  step (L_producer r2) c1 = Some (c2, ev2) ->
  step (L_producer r3) c2 = Some (c3, ev3) ->
  ev1 ++ ev2 ++ ev3 = [SourceSeek (i_seek_pos (sys c)) r2] /\
  source_offset c3 = i_seek_pos (sys c) /\
  i_read_index (sys c3) = i_seek_pos (sys c) mod RING_TOTAL_CAPACITY /\
  i_write_index (sys c3) = i_seek_pos (sys c) mod RING_TOTAL_CAPACITY /\
  i_buffer_size (sys c3) = 0 /\
  i_cache_index (sys c3) = 0 /\
  i_cache_size (sys c3) = 0 /\
  i_cache_offset (sys c3) = i_seek_pos (sys c) /\
  i_stream_offset (sys c3) = i_seek_pos (sys c) /\
  b_seek_request (sys c3) = false /\
  ppc c3 = P_ReadSrc.
Proof.
  intros Hpc Hreq Hcls Hr2 H1 H2 H3.
  destruct c as [s so pp cp cn]; simpl in *. subst pp.
  unfold step, BufferThread in H1; simpl in H1.
  rewrite Hreq, Hcls in H1.
  assert (Hc1 : c1 = mk_config s so P_SourceSeek cp cn /\ ev1 = []).
  { destruct cp; try discriminate H1; inversion H1; subst; auto. }
  destruct Hc1 as [-> ->].
  unfold step, BufferThread in H2; simpl in H2.
  destruct (Z.ltb_spec r2 0); [lia|].
  assert (Hc2 : c2 = mk_config s (i_seek_pos s) (P_Commit true) cp cn
                /\ ev2 = [SourceSeek (i_seek_pos s) r2]).
  { destruct cp; try discriminate H2; inversion H2; subst; auto. }
  destruct Hc2 as [-> ->].
  unfold step, BufferThread, commit_seek in H3; simpl in H3.
  destruct cp; try discriminate H3; inversion H3; subst; simpl;
    repeat split; reflexivity.
Qed.

(** The cache fields after a write that does not slide the window. *)
Lemma WriteToBuffer_l_no_slide s i_write r s' ev :
  0 < i_write ->
  WriteToBuffer_l s i_write = (Ready r, s', ev) ->
  0 <= r ->
  i_cache_size s + i_write <= RING_TOTAL_CAPACITY ->
  i_cache_size s' = i_cache_size s + i_write /\
  i_cache_offset s' = i_cache_offset s /\
  i_seek_pos s' = i_seek_pos s.
Proof.
  intros Hpos H Hr Hfit. unfold WriteToBuffer_l in H.
  destruct (WaitBufferForWrite_l s i_write) as [[i_buffer|] e0];
    [|discriminate H].
  destruct (Z.ltb_spec i_buffer 0).
  - injection H as Hr' Hs' He'. lia.
  - pose proof (copy_loop_all i_write (i_write_index s) ltac:(lia)) as Hc.
    destruct (copy_loop _ _ _ _) as [f l]. cbn [fst] in Hc. subst f.
    fields.
    destruct (Z.ltb_spec RING_TOTAL_CAPACITY (i_cache_size s + i_write));
      [lia|].
    injection H as Hr' Hs' He'. subst s'. fields. auto.
Qed.

(** X18.  A middle seek becomes short by reading on.  If the pending seek
    is classified middle and the producer then writes [i_write] bytes
    without sliding the cache window, the seek is classified short as soon
    as the write has passed the target ([i_seek_pos] below the new end of
    the window), and middle again otherwise. *)
Theorem middle_seek_turns_short s i_write r s' ev :
  0 <= i_cache_offset s ->
  0 <= i_cache_size s ->
  i_cache_offset s + i_cache_size s + i_write + RING_SEEK_THRESHOLD < 2 ^ 64 ->
  classify_seek s = MiddleSeek ->
  0 < i_write ->
  WriteToBuffer_l s i_write = (Ready r, s', ev) ->
  0 <= r ->
  i_cache_size s + i_write <= RING_TOTAL_CAPACITY ->
  classify_seek s'
  = if i_seek_pos s <? i_cache_offset s + i_cache_size s + i_write
    then ShortSeek else MiddleSeek.
Proof.
  intros Ho Hs Hmax Hmid Hpos H Hr Hfit.
  pose proof (classify_seek_cases s Ho Hs ltac:(lia)) as H0.
  rewrite Hmid in H0.
  destruct (WriteToBuffer_l_no_slide _ _ _ _ _ Hpos H Hr Hfit)
    as (Hcs & Hco & Hsp).
  pose proof (classify_seek_cases s') as H1.
  rewrite Hcs, Hco, Hsp in H1.
  specialize (H1 Ho ltac:(lia) ltac:(lia)).
  destruct (Z.ltb_spec (i_seek_pos s)
              (i_cache_offset s + i_cache_size s + i_write));
    destruct (classify_seek s'); try reflexivity; lia.
Qed.

(** X19.  In every reachable state the two indices are positions of the
    ring, the live window is shorter than the ring, and it ends at the
    write index: [(i_write_index - i_read_index) mod RING_TOTAL_CAPACITY]
    is [i_buffer_size], whether a seek is pending or not. *)
Theorem live_window_ends_at_write_index c :
  reachable c ->
  0 <= i_read_index (sys c) < RING_TOTAL_CAPACITY /\
  0 <= i_write_index (sys c) < RING_TOTAL_CAPACITY /\
  0 <= i_buffer_size (sys c) < RING_TOTAL_CAPACITY /\
  (i_write_index (sys c) - i_read_index (sys c)) mod RING_TOTAL_CAPACITY
  = i_buffer_size (sys c).
Proof. intros H. exact (reachable_ring_inv c H). Qed.

(** ** Instances *)

(** On the 64 MiB source: a long seek to offset 2096000, 1152 bytes before
    the end of the second block, has been resolved. *)
Definition near_block_end : config :=
  mk_config
    (mk_sys 67108864 false true false false 0 0 2096000 0 2096000 2096000 0
       false 2096000 false None 0)
    2096000 P_ReadSrc C_Idle false.

Definition near_block_end_schedule : list label :=
  [L_control (STREAM_SET_POSITION 2096000);
   L_producer 0; L_producer 0; L_producer 0; L_producer 0].

(** Then the source has delivered 2000 bytes, which the producer has
    written across the block boundary. *)
Definition across_block_boundary : config :=
  mk_config
    (mk_sys 67108864 false true false false 0 2000 2096000 2000 2096000
       2098000 0 false 2096000 true None 0)
    2098000 P_Head C_Idle false.

Lemma near_block_end_reachable : reachable near_block_end.
Proof.
  apply (run_to_reachable env_64M (opened env_64M) near_block_end_schedule);
    vm_compute; reflexivity.
Qed.

Lemma across_block_boundary_reachable : reachable across_block_boundary.
Proof.
  apply (run_to_reachable env_64M (opened env_64M)
           (near_block_end_schedule ++ [L_producer 2000; L_producer 0]));
    vm_compute; reflexivity.
Qed.

Lemma after_first_write_reachable : reachable after_first_write.
Proof.
  exact (run_to_reachable env_64M _ _ _ eq_refl after_first_write_reached).
Qed.

(** Byte [j] of the block handed to the producer is [j]; the ring and the
    caller's buffer start out zeroed. *)
Definition counting : buffer := fun j => j.
Definition zeroed_ring : ring_mem := fun _ _ => 0.
Definition zeroed : buffer := fun _ => 0.

Lemma near_block_end_inv : ring_inv (sys near_block_end).
Proof. exact (reachable_ring_inv _ near_block_end_reachable). Qed.

Lemma across_block_boundary_inv : ring_inv (sys across_block_boundary).
Proof. exact (reachable_ring_inv _ across_block_boundary_reachable). Qed.

Lemma write_appends_to_live_window_witness :
  exists s' ev,
    WriteToBuffer_l (sys near_block_end) 2000 = (Ready 2000, s', ev) /\
    live (ring_after counting zeroed_ring ev) s' 1500 = 1500.
Proof.
  do 2 eexists. split; [vm_compute; reflexivity|].
  match goal with
  | |- live (ring_after _ _ ?ev) ?s' _ = _ =>
      refine (proj2 (proj2 (write_appends_to_live_window
                              (sys near_block_end) 2000 2000 s' ev
                              counting zeroed_ring 1500
                              near_block_end_inv eq_refl _ _ _)))
  end; [vm_compute; reflexivity | lia | simpl; lia].
Defined.

Lemma read_takes_from_live_window_witness :
  exists s' ev,
    ReadFromBuffer_l (sys across_block_boundary) true 2000
    = (Ready 2000, s', ev) /\
    forall m dst, buffer_after m dst ev 1500 = m 2 348.
Proof.
  do 2 eexists. split; [vm_compute; reflexivity|].
  intros m dst.
  match goal with
  | |- buffer_after _ _ ?ev _ = _ =>
      refine (proj1 (proj2 (proj2 (read_takes_from_live_window
                                     (sys across_block_boundary) 2000 2000
                                     _ ev m dst 1500
                                     across_block_boundary_inv eq_refl _ _))))
  end; [vm_compute; reflexivity | lia].
Defined.

Lemma write_then_read_round_trip_witness :
  exists s1 ev1 s2 ev2,
    WriteToBuffer_l (sys near_block_end) 2000 = (Ready 2000, s1, ev1) /\
    ReadFromBuffer_l s1 true 2000 = (Ready 2000, s2, ev2) /\
    buffer_after (ring_after counting zeroed_ring ev1) zeroed ev2 1500 = 1500.
Proof.
  do 4 eexists. split; [vm_compute; reflexivity|].
  split; [vm_compute; reflexivity|].
  match goal with
  | |- buffer_after (ring_after _ _ ?ev1) _ ?ev2 _ = _ =>
      refine (proj2 (proj2 (write_then_read_round_trip
                              (sys near_block_end) 2000 2000 _ ev1 2000 _ ev2
                              counting zeroed_ring zeroed 1500
                              near_block_end_inv eq_refl eq_refl eq_refl
                              _ _ _ _)))
  end; [vm_compute; reflexivity | lia | vm_compute; reflexivity | lia].
Defined.

Lemma ring_accesses_stay_in_blocks_witness :
  exists c' ev,
    step (L_read true 2000) across_block_boundary = Some (c', ev) /\
    In (MemcpyFromRing 1 1047424 0 1152) ev /\
    In (MemcpyFromRing 2 0 1152 848) ev /\
    Forall event_in_ring ev.
Proof.
  do 2 eexists. split; [vm_compute; reflexivity|].
  split; [simpl; auto|]. split; [simpl; auto|].
  match goal with
  | |- Forall _ ?ev =>
      refine (ring_accesses_stay_in_blocks across_block_boundary
                (L_read true 2000) _ ev across_block_boundary_reachable _)
  end.
  vm_compute; reflexivity.
Defined.

(** On the 64 MiB source: 320 blocks written and consumed; the cache window
    is exactly as large as the ring. *)
Definition cache_fills_ring : config :=
  mk_config
    (mk_sys 67108864 false true false false 0 10485760 0 0 0 0 0 false
       10485760 false None 0)
    10485760 P_Head C_Idle false.

Lemma cache_fills_ring_reachable : reachable cache_fills_ring.
Proof.
  apply (run_to_reachable env_64M (opened env_64M)
           (repeat_labels 320 fill_and_drain));
    vm_compute; reflexivity.
Qed.

Lemma cache_size_bound_witness :
  0 <= i_cache_size (sys cache_fills_ring) <= 11535360 /\
  exists s' ev,
    WriteToBuffer_l (sys cache_fills_ring) 32768 = (Ready 32768, s', ev) /\
    i_cache_size s' = 11535360.
Proof.
  destruct (cache_size_bound cache_fills_ring cache_fills_ring_reachable)
    as [Hbound Hslide].
  split; [exact Hbound|].
  do 2 eexists. split; [vm_compute; reflexivity|].
  match goal with
  | |- i_cache_size ?s' = _ =>
      refine (Hslide 32768 32768 s' _ eq_refl _ _ eq_refl)
  end; [vm_compute; reflexivity | lia].
Defined.

Lemma write_keeps_guard_gap_witness :
  exists s' ev,
    WriteToBuffer_l (sys near_block_end) 2000 = (Ready 2000, s', ev) /\
    i_buffer_size s' = 2000 /\
    RING_BUFF_RW_GUARD_GAP < RING_TOTAL_CAPACITY - i_buffer_size s'.
Proof.
  do 2 eexists. split; [vm_compute; reflexivity|].
  match goal with
  | |- i_buffer_size ?s' = _ /\ _ =>
      pose proof (write_keeps_guard_gap (sys near_block_end) 2000 2000 s' _
                    eq_refl eq_refl ltac:(lia)) as (_ & _ & H1 & H2 & _)
  end.
  split; [exact H1|exact H2].
Defined.

Lemma read_without_pending_seek_witness :
  fst (fst (ReadFromBuffer_l (sys across_block_boundary) true 100))
  = Ready 100 /\
  fst (fst (ReadFromBuffer_l (sys across_block_boundary) true 5000))
  = Ready 2000 /\
  ReadFromBuffer_l (sys after_first_write) true 40000
  = (Wait, sys after_first_write,
     [Broadcast wakeup_write_cond; TimedWait wakeup_read_cond]).
Proof.
  split; [|split].
  - apply (read_without_pending_seek (sys across_block_boundary) true 100);
      try reflexivity; simpl; lia.
  - apply (read_without_pending_seek (sys across_block_boundary) true 5000
             eq_refl eq_refl ltac:(simpl; lia));
      try reflexivity.
  - apply (read_without_pending_seek (sys after_first_write) true 40000
             eq_refl eq_refl ltac:(simpl; lia));
      try reflexivity.
Defined.

(** On a 100-byte source: everything is buffered, 10 bytes have been read
    and a seek to offset 50 is posted while the producer is parked. *)
Definition parked_with_seek_posted : config :=
  mk_config
    (mk_sys 100 false true false false 0 100 0 90 10 100 50 true 10 true
       None 0)
    100 P_Park C_Idle false.

Lemma parked_with_seek_posted_reachable : reachable parked_with_seek_posted.
Proof.
  apply (run_to_reachable env_100 (opened env_100)
           [L_producer 0; L_producer 0; L_producer 100; L_producer 0;
            L_read true 10; L_producer 0; L_producer 0;
            L_control (STREAM_SET_POSITION 50)]);
    vm_compute; reflexivity.
Qed.

Lemma read_behind_seek_at_eos_exceeds_request_witness :
  exists l,
    PeekFromBuffer_l (sys parked_with_seek_posted) true 20
    = (Ready 90, memcpy_from_ring true l) /\
    total_length l = 90 /\
    20 < total_length l /\
    fst (fst (ReadFromBuffer_l (sys parked_with_seek_posted) true 20))
    = Ready 90.
Proof.
  apply (read_behind_seek_at_eos_exceeds_request
           (sys parked_with_seek_posted) 20
           (reachable_ring_inv _ parked_with_seek_posted_reachable));
    try reflexivity.
  simpl; lia.
Defined.

Lemma degenerate_requests_witness :
  Read (sys after_first_write) true 4294967295
  = (Ready (-1), sys after_first_write, []) /\
  Peek_locked (sys after_first_write) true 0 = (Ready 0, []).
Proof.
  destruct (degenerate_requests (sys after_first_write) true)
    as (_ & H2 & H3 & _).
  split; [|exact H3].
  apply (H2 4294967295). lia.
Defined.

Lemma peek_out_of_memory_witness :
  exists c' ev,
    step (L_peek 16 false) after_first_write = Some (c', ev) /\
    c' = after_first_write /\
    ev = [Realloc 16 false; PeekReturns VLC_ENOMEM].
Proof.
  do 2 eexists. split; [vm_compute; reflexivity|].
  refine (peek_out_of_memory after_first_write 16 _ _
            after_first_write_reachable eq_refl _).
  vm_compute; reflexivity.
Defined.

Lemma peek_then_read_agree_witness :
  exists c1 ev1 pieces,
    step (L_peek 16 true) after_first_write = Some (c1, ev1) /\
    ev1 = [Realloc 16 true] ++ pieces ++ [PeekReturns (Ret_int 16)] /\
    forall c2 ev2,
      step (L_read true 16) c1 = Some (c2, ev2) ->
      ev2 = pieces ++ [Broadcast wakeup_write_cond] ++ [ReadReturns 16].
Proof.
  do 2 eexists.
  match goal with
  | |- exists pieces, step _ _ = Some (?c1, ?ev1) /\ _ =>
      assert (Hs : step (L_peek 16 true) after_first_write = Some (c1, ev1))
        by (vm_compute; reflexivity);
      destruct (peek_then_read_agree after_first_write 16 c1 ev1 16
                  after_first_write_reachable eq_refl Hs
                  ltac:(simpl; auto 10))
        as (_ & _ & pieces & Hev & Hread)
  end.
  exists pieces. split; [exact Hs|]. split; [exact Hev|exact Hread].
Defined.

Lemma cached_size_unchanged_by_read_witness :
  exists s' ev,
    ReadFromBuffer_l (sys across_block_boundary) true 100
    = (Ready 100, s', ev) /\
    Control s' STREAM_GET_CACHED_SIZE
    = (s', VLC_SUCCESS, Some (Ret_u64 2098000), []).
Proof.
  do 2 eexists. split; [vm_compute; reflexivity|].
  match goal with
  | |- Control ?s' _ = _ =>
      refine (cached_size_unchanged_by_read (sys across_block_boundary) true
                100 100 s' _ _ eq_refl eq_refl _)
  end; [simpl; lia | lia].
Defined.

(** On the 64 MiB source after the first write: [Close] has been entered. *)
Definition closing : config :=
  mk_config
    (mk_sys 67108864 false true false true 0 32768 0 32768 0 32768 0 false 0
       false None 0)
    32768 P_Head C_Idle true.

Lemma flags_are_never_cleared_witness :
  exists c' ev,
    step (L_producer 0) closing = Some (c', ev) /\
    b_abort (sys c') = true /\
    i_stream_size (sys c') = 67108864.
Proof.
  do 2 eexists. split; [vm_compute; reflexivity|].
  match goal with
  | |- b_abort (sys ?c') = _ /\ _ =>
      destruct (flags_are_never_cleared (L_producer 0) closing c' []
                  eq_refl) as (_ & Ha & Hsz & _)
  end.
  split; [exact (Ha eq_refl)|exact Hsz].
Defined.

Lemma shutdown_is_prompt_witness :
  exists c' ev,
    step (L_producer 0) closing = Some (c', ev) /\
    stopping (sys c') /\
    (steps_to_exit (ppc c') < steps_to_exit (ppc closing))%nat.
Proof.
  do 2 eexists. split; [vm_compute; reflexivity|].
  match goal with
  | |- stopping (sys ?c') /\ _ =>
      destruct (shutdown_is_prompt (L_producer 0) closing c' []
                  (or_introl eq_refl) eq_refl) as (Hs & Hm & _)
  end.
  split; [exact Hs|exact Hm].
Defined.

(** On the 64 MiB source after the first write: a seek to offset 100 has
    been classified short. *)
Definition short_seek_classified : config :=
  mk_config
    (mk_sys 67108864 false true false false 0 32768 0 32768 0 32768 100 true 0
       false None 0)
    32768 (P_Commit false) C_Idle false.

Lemma short_seek_classified_reachable : reachable short_seek_classified.
Proof.
  apply (run_to_reachable env_64M (opened env_64M)
           [L_producer 0; L_producer 0; L_producer 32768; L_producer 0;
            L_control (STREAM_SET_POSITION 100); L_producer 0; L_producer 0]);
    vm_compute; reflexivity.
Qed.

Lemma producer_resolves_only_posted_seeks_witness :
  b_seek_request (sys short_seek_classified) = true.
Proof.
  apply (producer_resolves_only_posted_seeks short_seek_classified
           short_seek_classified_reachable).
  right. exists false. reflexivity.
Defined.

(** On the 64 MiB source: a seek to offset 4 MiB has been posted, and then
    classified long. *)
Definition long_seek_posted : config :=
  mk_config
    (mk_sys 67108864 false true false false 0 0 0 0 0 0 4194304 true 0 false
       None 0)
    0 P_SeekCheck C_Idle false.

Definition long_seek_classified : config :=
  mk_config
    (mk_sys 67108864 false true false false 0 0 0 0 0 0 4194304 true 0 false
       None 0)
    0 P_SourceSeek C_Idle false.

Lemma long_seek_classified_reachable : reachable long_seek_classified.
Proof.
  apply (run_to_reachable env_64M (opened env_64M)
           [L_control (STREAM_SET_POSITION 4194304); L_producer 0;
            L_producer 0]);
    vm_compute; reflexivity.
Qed.

Lemma source_seek_failure_is_terminal_witness :
  exists c1,
    step (L_producer (-1)) long_seek_classified
    = Some (c1, [SourceSeek 4194304 (-1)]) /\
    b_error (sys c1) = true /\
    ppc c1 = P_Exit /\
    forall ls c2 ev2,
      run ls c1 = Some (c2, ev2) ->
      forall i_read,
        0 < i_read ->
        ReadFromBuffer_l (sys c2) true i_read = (Ready (-1), sys c2, []).
Proof.
  eexists. split; [vm_compute; reflexivity|].
  match goal with
  | |- b_error (sys ?c1) = _ /\ _ =>
      destruct (source_seek_failure_is_terminal long_seek_classified (-1) c1
                  [SourceSeek 4194304 (-1)]
                  long_seek_classified_reachable eq_refl eq_refl eq_refl)
        as (He & Hp & _ & Hrun)
  end.
  split; [exact He|]. split; [exact Hp|].
  intros ls c2 ev2 Hr i_read Hpos.
  destruct (Hrun ls c2 ev2 Hr) as (_ & _ & _ & _ & Hread).
  exact (proj2 (Hread true i_read Hpos)).
Defined.

Lemma long_seek_resolution_witness :
  exists c1 ev1 c2 ev2 c3 ev3,
    step (L_producer 0) long_seek_posted = Some (c1, ev1) /\
    step (L_producer 0) c1 = Some (c2, ev2) /\
    step (L_producer 0) c2 = Some (c3, ev3) /\
    ev1 ++ ev2 ++ ev3 = [SourceSeek 4194304 0] /\
    source_offset c3 = 4194304 /\
    i_read_index (sys c3) = 4194304 /\
    i_cache_offset (sys c3) = 4194304 /\
    b_seek_request (sys c3) = false.
Proof.
  do 6 eexists.
  split; [vm_compute; reflexivity|].
  split; [vm_compute; reflexivity|].
  split; [vm_compute; reflexivity|].
  match goal with
  | |- ?e1 ++ ?e2 ++ ?e3 = _ /\ source_offset ?c3 = _ /\ _ =>
      destruct (long_seek_resolution long_seek_posted 0 _ e1 0 _ e2 0 c3 e3
                  eq_refl eq_refl eq_refl ltac:(lia)
                  eq_refl eq_refl eq_refl)
        as (H1 & H2 & H3 & _ & _ & _ & _ & H4 & _ & H5 & _)
  end.
  split; [exact H1|]. split; [exact H2|]. split; [exact H3|].
  split; [exact H4|exact H5].
Defined.

(** On the 64 MiB source after the first write: a seek to offset 40000,
    7232 bytes past the end of the cache window, has been classified middle
    and the live window has been dropped. *)
Definition middle_seek_pending : config :=
  mk_config
    (mk_sys 67108864 false true false false 0 32768 0 0 32768 32768 40000 true
       0 false None 0)
    32768 P_ReadSrc C_Idle false.

Example middle_seek_pending_reached :
  run_to [L_producer 0; L_producer 0; L_producer 32768; L_producer 0;
          L_control (STREAM_SET_POSITION 40000); L_producer 0; L_producer 0]
    (opened env_64M)
  = Some middle_seek_pending.
Proof. vm_compute. reflexivity. Qed.

Lemma middle_seek_turns_short_witness :
  classify_seek (sys middle_seek_pending) = MiddleSeek /\
  exists s' ev,
    WriteToBuffer_l (sys middle_seek_pending) 32768 = (Ready 32768, s', ev) /\
    classify_seek s' = ShortSeek.
Proof.
  split; [reflexivity|].
  do 2 eexists. split; [vm_compute; reflexivity|].
  match goal with
  | |- classify_seek ?s' = _ =>
      refine (middle_seek_turns_short (sys middle_seek_pending) 32768 32768
                s' _ _ _ _ eq_refl eq_refl eq_refl _ _)
  end; simpl; consts; lia.
Defined.

Lemma live_window_ends_at_write_index_witness :
  0 <= i_read_index (sys across_block_boundary) < RING_TOTAL_CAPACITY /\
  0 <= i_write_index (sys across_block_boundary) < RING_TOTAL_CAPACITY /\
  0 <= i_buffer_size (sys across_block_boundary) < RING_TOTAL_CAPACITY /\
  (2098000 - 2096000) mod RING_TOTAL_CAPACITY = 2000.
Proof.
  exact (live_window_ends_at_write_index across_block_boundary
           across_block_boundary_reachable).
Defined.

Example closing_reached :
  run_to [L_producer 0; L_producer 0; L_producer 32768; L_producer 0; L_close]
    (opened env_64M)
  = Some closing.
Proof. vm_compute. reflexivity. Qed.
